(** * clone_ea_org: a shallow embedding of [clone_ea_org.py]

    The script lists the repositories of a GitHub organization page by
    page, clones or updates each of them through the external [git]
    tool, and writes a summary.  Everything outside the script (the HTTP
    server, the [git] executable, the file system, the clock and the
    thread scheduler) is an explicit environment; what the script does to
    the outside is recorded as a trace of events. *)

From Stdlib Require Import ZArith String Ascii List Bool Lia Permutation Sorted.
From stdpp Require Import base option list gmap strings pretty.

Local Open Scope Z_scope.

(** ** Python values, exceptions and results *)

(** The JSON scalars a repository dictionary can hold. *)
Inductive PyVal :=
| PNone
| PBool (b : bool)
| PInt (n : Z)
| PStr (s : string).

(** An exception: its class and [str(e)]. *)
Inductive PyExn := Raise (cls msg : string).

Definition exn_str (e : PyExn) : string :=
  match e with Raise _ msg => msg end.

(** The result of running a piece of the script: a value, an exception
    on its way up, or [OutOfFuel] when the bound given to an unbounded
    loop was used up before the loop ended. *)
Inductive Res (A : Type) :=
| Val (a : A)
| Exn (e : PyExn)
| OutOfFuel.
Arguments Val {A} a.
Arguments Exn {A} e.
Arguments OutOfFuel {A}.

(** What the script does to the outside world, in order. *)
Inductive Event :=
| EvGet (headers : gmap string string) (page : Z)
| EvGit (args : list string) (cwd : option string)
| EvSleep (secs : Z)
| EvWrite (line : string)
| EvTick.

Record St := mkSt { calls : nat; trace : list Event }.

Definition st0 : St := mkSt 0 [].

Definition M (A : Type) : Type := St -> Res A * St.

Definition ret {A} (a : A) : M A := fun st => (Val a, st).

Definition throw {A} (e : PyExn) : M A := fun st => (Exn e, st).

Definition bind {A B} (m : M A) (k : A -> M B) : M B :=
  fun st =>
    match m st with
    | (Val a, st') => k a st'
    | (Exn e, st') => (Exn e, st')
    | (OutOfFuel, st') => (OutOfFuel, st')
    end.

(** [try: m  except Exception: h] *)
Definition catch {A} (m : M A) (h : PyExn -> M A) : M A :=
  fun st =>
    match m st with
    | (Exn e, st') => h e st'
    | r => r
    end.

Definition lift {A} (r : Res A) : M A := fun st => (r, st).

Definition emit (e : Event) : M unit :=
  fun st => (Val tt, mkSt (calls st) (trace st ++ [e])).

Notation "'do' x <- m ; k" := (bind m (fun x => k))
  (at level 10, x name, m at level 100, k at level 200).

(** ** Strings *)

Definition lower_ascii (c : ascii) : ascii :=
  let n := nat_of_ascii c in
  if ((65 <=? n) && (n <=? 90))%nat then ascii_of_nat (n + 32) else c.

(** [s.lower()] on ASCII text. *)
Fixpoint lower (s : string) : string :=
  match s with
  | EmptyString => EmptyString
  | String c tl => String (lower_ascii c) (lower tl)
  end.

(** [needle in hay] *)
Fixpoint contains (needle hay : string) : bool :=
  String.prefix needle hay ||
  match hay with
  | EmptyString => false
  | String _ tl => contains needle tl
  end.

(** [s.startswith(p)] *)
Definition startswith (s p : string) : bool := String.prefix p s.

(** [os.path.join(a, b)] on POSIX. *)
Definition ends_with_slash (a : string) : bool :=
  match String.get (String.length a - 1) a with
  | Some c => Ascii.eqb c "/"
  | None => false
  end.

Definition path_join (a b : string) : string :=
  if String.prefix "/" b then b
  else if String.eqb a EmptyString || ends_with_slash a then a +:+ b
  else a +:+ "/" +:+ b.

(** ** The external [git] tool *)

(** How one invocation of [git] ends: the process exits with a status,
    or starting it raises (executable missing, working directory gone). *)
Inductive GitResult :=
| Exit (code : Z)
| Raises (e : PyExn).

(** What one worker sees of the outside: which paths exist, and how the
    [n]-th invocation of [git] it makes ends. *)
Record WorkerEnv := mkWorkerEnv {
  path_exists : string -> bool;
  git : nat -> list string -> option string -> GitResult
}.

Definition as_str (v : PyVal) : option string :=
  match v with PStr s => Some s | _ => None end.

(** [type(v).__name__] *)
Definition type_name (v : PyVal) : string :=
  match v with
  | PNone => "NoneType"
  | PBool _ => "bool"
  | PInt _ => "int"
  | PStr _ => "str"
  end.

(** [d[k]] *)
Definition getitem (d : gmap string PyVal) (k : string) : Res PyVal :=
  match d !! k with
  | Some v => Val v
  | None => Exn (Raise "KeyError" ("'" +:+ k +:+ "'"))
  end.

(** [d.get(k)] *)
Definition dict_get (d : gmap string PyVal) (k : string) : PyVal :=
  default PNone (d !! k).

(** [v + s] for a string [s] *)
Definition add_str (v : PyVal) (s : string) : Res string :=
  match v with
  | PStr n => Val (n +:+ s)
  | _ => Exn (Raise "TypeError"
                ("unsupported operand type(s) for +: '" +:+ type_name v
                 +:+ "' and 'str'"))
  end.

(** [run_git_cmd(args, cwd)]: [Popen] refuses arguments that are not
    strings; otherwise the process runs and its exit status is returned.
    The lines the process prints are passed on to the console and play no
    part in what is returned. *)
Definition bad_arg_type (args : list PyVal) : string :=
  match List.find (fun v => match as_str v with Some _ => false | None => true end)
          args with
  | Some v => type_name v
  | None => "str"
  end.

Definition run_git_cmd (env : WorkerEnv) (args : list PyVal)
    (cwd : option string) : M Z :=
  fun st =>
    match mapM as_str args with
    | None =>
        (Exn (Raise "TypeError"
                ("expected str, bytes or os.PathLike object, not "
                 +:+ bad_arg_type args)), st)
    | Some argv =>
        let st' := mkSt (S (calls st)) (trace st ++ [EvGit argv cwd]) in
        match git env (calls st) argv cwd with
        | Exit code => (Val code, st')
        | Raises e => (Exn e, st')
        end
    end.

(** ** The worker: [clone_one] *)

Section Worker.
Variable env : WorkerEnv.
Variable repo : gmap string PyVal.
Variable dest_dir : string.
Variables use_ssh shallow mirror : bool.
Variable retries : Z.

Definition strs (l : list string) : list PyVal := PStr <$> l.

(** Lines 146-155: the body of the [try]. [Some s] is [return s];
    [None] leaves the [if] without returning. *)
Definition update_attempt (name target : string) : M (option string) :=
  do code <-
    (if mirror then
       run_git_cmd env (strs ["git"; "remote"; "update"; "--prune"]) (Some target)
     else
       do code <- run_git_cmd env (strs ["git"; "fetch"; "--all"; "--prune"]) (Some target);
       if code =? 0 then
         do _ <- run_git_cmd env (strs ["git"; "pull"; "--ff-only"]) (Some target);
         ret code
       else ret code);
  if code =? 0 then ret (Some ("updated: " +:+ name)) else ret None.

(** Lines 144-157. *)
Definition update_existing (name target : string) : M (option string) :=
  if path_exists env target then
    catch (update_attempt name target) (fun _ => ret None)
  else ret None.

(** Lines 160-165. *)
Definition clone_cmd (url : PyVal) (target : string) : list PyVal :=
  strs ["git"; "clone"]
  ++ (if mirror then [PStr "--mirror"] else [])
  ++ (if shallow && negb mirror then strs ["--depth"; "1"; "--no-single-branch"] else [])
  ++ [url; PStr target].

Definition retry_notice (name : string) (code delay attempt : Z) : string :=
  "[" +:+ name +:+ "] clone failed with exit code " +:+ pretty code
  +:+ ". Retrying in " +:+ pretty delay +:+ "s (attempt " +:+ pretty attempt
  +:+ "/" +:+ pretty retries +:+ ")...".

(** Lines 169-179: the [while attempt <= retries] loop, one unfolding
    per unit of [fuel].  The sleeps are [5 * 2 ^ i] seconds for
    [i < retries]; they are lengths [time.sleep] accepts as long as
    [retries] is at most 30 ([main] passes 2), which is taken for granted
    here. *)
Fixpoint clone_loop (fuel : nat) (cmd : list PyVal) (name : string)
    (attempt delay : Z) : M string :=
  match fuel with
  | O => lift OutOfFuel
  | S fuel' =>
      if attempt <=? retries then
        do code <- run_git_cmd env cmd None;
        if code =? 0 then ret ("cloned: " +:+ name)
        else
          let attempt := attempt + 1 in
          if attempt <=? retries then
            do _ <- emit (EvWrite (retry_notice name code delay attempt));
            do _ <- emit (EvSleep delay);
            clone_loop fuel' cmd name attempt (delay * 2)
          else clone_loop fuel' cmd name attempt delay
      else ret ("failed: " +:+ name)
  end.

(** The loop is entered with [attempt = 0] and leaves once
    [attempt > retries]: this many unfoldings are enough. *)
Definition clone_fuel : nat := S (Z.to_nat (retries + 1)).

(** Lines 136-179.  Line 141 raises unless the name is a string, so
    from there on [name] is that string. *)
Definition clone_one : M string :=
  do name_v <- lift (getitem repo "name");
  do url <- lift (getitem repo (if use_ssh then "ssh_url" else "clone_url"));
  do leaf <- lift (add_str name_v (if mirror then ".git" else EmptyString));
  let name := default EmptyString (as_str name_v) in
  let target := path_join dest_dir leaf in
  do updated <- update_existing name target;
  match updated with
  | Some outcome => ret outcome
  | None => clone_loop clone_fuel (clone_cmd url target) name 0 5
  end.
End Worker.

(** ** The lister: [fetch_all_repos] *)

(** An element of the JSON array of a page: an object, or a value of
    some other type (given by the name of its Python type). *)
Inductive Entry :=
| EDict (d : gmap string PyVal)
| EOther (ty : string).

(** [resp.json()]: an array, some other JSON value (given by its
    [json.dumps] text), or a body that does not parse (given by the
    exception the decoder raises). *)
Inductive JsonBody :=
| JArray (items : list Entry)
| JOther (dump : string)
| JInvalid (e : PyExn).

(** A response as the script reads it: [header k] is
    [resp.headers.get(k)], and [status_error] is the exception that
    [raise_for_status] builds for it when the status is an error. *)
Record Response := mkResponse {
  status_code : Z;
  text : string;
  header : string -> option string;
  json : JsonBody;
  status_error : PyExn
}.

(** One [requests.get]: a response, or an exception of the HTTP client
    (no connection, timeout). *)
Inductive HttpResult :=
| Got (resp : Response)
| NetErr (e : PyExn).

(** What the lister uses of the Python runtime and of the clock:
    [clock n] is what [int(time.time())] gives after [n] requests,
    [int_of s] is [int(s)] ([None] when it raises), [strip_of s] is
    [s.strip()], and [sleep secs] is the exception that
    [time.sleep(secs)] raises, if it raises one. *)
Record ListerEnv := mkListerEnv {
  clock : nat -> Z;
  int_of : string -> option Z;
  strip_of : string -> string;
  sleep : Z -> option PyExn
}.

(** Truth value of a Python scalar. *)
Definition truthy (v : PyVal) : bool :=
  match v with
  | PNone => false
  | PBool b => b
  | PInt n => negb (n =? 0)
  | PStr s => negb (String.eqb s EmptyString)
  end.

Definition archived (repo : gmap string PyVal) : bool :=
  truthy (dict_get repo "archived").

(** Line 92. *)
Definition rate_limited (resp : Response) : bool :=
  (status_code resp =? 403) && contains "rate limit" (lower (text resp)).

(** [resp.raise_for_status()] of the HTTP client: statuses 400 to 599
    raise. *)
Definition http_error (resp : Response) : bool :=
  (400 <=? status_code resp) && (status_code resp <? 600).

Definition raise_for_status (resp : Response) : M unit :=
  if http_error resp then throw (status_error resp) else ret tt.

(** [repo.get("archived")] on an element of the array. *)
Definition no_get (ty : string) : PyExn :=
  Raise "AttributeError" ("'" +:+ ty +:+ "' object has no attribute 'get'").

(** Lines 112-115: with [include_archived] the element is appended
    without being looked at; without it, [repo.get] is called, which an
    element that is not an object does not have. *)
Fixpoint keep_page (include_archived : bool) (data repos : list Entry)
    : Res (list Entry) :=
  match data with
  | [] => Val repos
  | repo :: data' =>
      if include_archived then keep_page include_archived data' (repos ++ [repo])
      else
        match repo with
        | EDict d =>
            if archived d then keep_page include_archived data' repos
            else keep_page include_archived data' (repos ++ [repo])
        | EOther ty => Exn (no_get ty)
        end
  end.

Section Lister.
Variable lenv : ListerEnv.
Variable token : option string.
Variable include_archived : bool.

(** Lines 74-76. *)
Definition request_headers : gmap string string :=
  let headers := {[ "Accept" := "application/vnd.github+json" ]} in
  match token with
  | Some t =>
      if String.eqb t EmptyString then headers
      else <[ "Authorization" := "Bearer " +:+ strip_of lenv t ]> headers
  | None => headers
  end.

(** Line 101: [time.sleep(secs)], outside the [try] of lines 95-99. *)
Definition py_sleep (secs : Z) : M unit :=
  match sleep lenv secs with
  | Some e => throw e
  | None => emit (EvSleep secs)
  end.

(** Lines 93-99; [now] is [int(time.time())]. *)
Definition wait_seconds (resp : Response) (now : Z) : Z :=
  let reset := default EmptyString (header resp "X-RateLimit-Reset") in
  if String.eqb reset EmptyString then 60
  else match int_of lenv reset with
       | Some t => Z.max 1 (t - now)
       | None => 60
       end.

(** Lines 83-118: the [while True] loop. The server is the list of its
    successive answers; the loop asking for one more answer than the
    list holds is [OutOfFuel]. *)
Fixpoint fetch_loop (answers : list HttpResult) (page : Z)
    (repos : list Entry) : M (list Entry) :=
  match answers with
  | [] => lift OutOfFuel
  | answer :: answers' =>
      do _ <- (fun st => (Val tt,
                 mkSt (S (calls st)) (trace st ++ [EvGet request_headers page])));
      match answer with
      | NetErr e => throw e
      | Got resp =>
          if rate_limited resp then
            do wait_s <- (fun st => (Val (wait_seconds resp (clock lenv (calls st))), st));
            do _ <- emit (EvWrite ("Hit rate limit. Sleeping " +:+ pretty wait_s +:+ " seconds..."));
            do _ <- py_sleep wait_s;
            fetch_loop answers' page repos
          else
            do _ <- raise_for_status resp;
            match json resp with
            | JInvalid e => throw e
            | JOther dump =>
                throw (Raise "RuntimeError"
                         ("Unexpected response: " +:+ String.substring 0 4000 dump))
            | JArray [] => ret repos
            | JArray data =>
                do repos' <- lift (keep_page include_archived data repos);
                do _ <- emit EvTick;
                fetch_loop answers' (page + 1) repos'
            end
      end
  end.

Definition fetch_all_repos (answers : list HttpResult) : M (list Entry) :=
  fetch_loop answers 1 [].
End Lister.

(** ** The orchestrator and the summary: [main] *)

Module Args.
(** The parsed command line. *)
Record t := mk {
  dest : string;
  token : option string;
  ssh : bool;
  include_archived : bool;
  workers : Z;
  full : bool;
  mirror : bool
}.
End Args.

(** Everything [main] meets outside itself. *)
Record World := mkWorld {
  abspath : string -> string;
  (** [os.makedirs(path, exist_ok=True)]: the exception it raises, if any *)
  makedirs : string -> option PyExn;
  answers : list HttpResult;
  lister : ListerEnv;
  (** what the worker running the [i]-th submitted task sees *)
  worker_env : nat -> WorkerEnv;
  (** the order in which [as_completed] hands the futures back *)
  completion : list nat;
  (** [int(time.time())] at line 250 *)
  log_time : Z;
  (** opening the file at a path and writing a text to it: the exception
      raised, if any *)
  write_log : string -> string -> option PyExn
}.

Definition nl : string := String (ascii_of_nat 10) EmptyString.

(** Lines 209-213, on an object. *)
Definition select (r : gmap string PyVal) : gmap string PyVal :=
  {[ "name" := dict_get r "name";
     "clone_url" := dict_get r "clone_url";
     "ssh_url" := dict_get r "ssh_url" ]}.

(** Lines 208-213: [r.get] on each listed element in turn. *)
Fixpoint select_all (repos : list Entry) : Res (list (gmap string PyVal)) :=
  match repos with
  | [] => Val []
  | EDict d :: repos' =>
      match select_all repos' with
      | Val selected => Val (select d :: selected)
      | r => r
      end
  | EOther ty :: _ => Exn (no_get ty)
  end.

(** Line 229. *)
Definition effective_workers (requested : Z) : Z :=
  Z.max 1 (Z.min requested 16).

(** [ThreadPoolExecutor(max_workers=n)] *)
Definition make_pool (n : Z) : Res Z :=
  if n <=? 0 then Exn (Raise "ValueError" "max_workers must be greater than 0")
  else Val n.

(** Lines 223-226, with the [retries] default of [clone_one]. *)
Definition task (env : WorkerEnv) (dest_dir : string) (use_ssh shallow mirror : bool)
    (r : gmap string PyVal) : M string :=
  do out <- clone_one env r dest_dir use_ssh shallow mirror 2;
  do _ <- emit EvTick;
  ret out.

(** Lines 232-237: the futures are taken in completion order; an index
    that names no future of the pool contributes nothing. *)
Fixpoint gather (futures : list (Res string)) (order : list nat)
    (results : list string) : Res (list string) :=
  match order with
  | [] => Val results
  | i :: order' =>
      match futures !! i with
      | Some (Val res) => gather futures order' (results ++ [res])
      | Some (Exn e) => gather futures order' (results ++ ["failed: " +:+ exn_str e])
      | Some OutOfFuel => OutOfFuel
      | None => gather futures order' results
      end
  end.

(** Line 240. *)
Definition is_ok (r : string) : bool :=
  startswith r "cloned:" || startswith r "updated:".

Definition count_ok (results : list string) : Z :=
  fold_left (fun n r => if is_ok r then n + 1 else n) results 0.

(** Line 241. *)
Definition failures (results : list string) : list string :=
  List.filter (fun r => startswith r "failed:") results.

(** Lines 252-253: the text the writes add up to. *)
Definition log_text (results : list string) : string :=
  fold_left (fun f line => f +:+ (line +:+ nl)) results EmptyString.

Record Report := mkReport {
  pool_size : Z;
  results : list string;
  ok : Z;
  failed : list string
}.

(** One run of the script, as seen from outside: the exit status, what
    the script printed, the work done, the log file if it was written
    (path and text), and the exception that ended the run if one left
    [main] (its traceback is not part of [stderr] here). *)
Record Run := mkRun {
  exit_code : Z;
  stdout : list string;
  stderr : list string;
  lister_trace : list Event;
  worker_traces : list (list Event);
  report : option Report;
  log_written : option (string * string);
  uncaught : option PyExn
}.

(** Lines 182-254, after the command line has been parsed.  Every task
    runs against its own worker environment, from an empty trace. *)
Definition main (args : Args.t) (w : World) : Res Run :=
  let dest_dir := abspath w (Args.dest args) in
  match makedirs w dest_dir with
  | Some e => Val (mkRun 1 [] [] [] [] None None (Some e))
  | None =>
  match fetch_all_repos (lister w) (Args.token args) (Args.include_archived args)
          (answers w) st0 with
  | (OutOfFuel, _) => OutOfFuel
  | (Exn e, st) =>
      Val (mkRun 2 [] ["Error fetching repositories list: " +:+ exn_str e]
             (trace st) [] None None None)
  | (Val [], st) =>
      Val (mkRun 0
             ["No repositories found. (Maybe the org is empty or your token lacks access?)"]
             [] (trace st) [] None None None)
  | (Val repos, st) =>
      match select_all repos with
      | OutOfFuel => OutOfFuel
      | Exn e => Val (mkRun 1 [] [] (trace st) [] None None (Some e))
      | Val selected =>
      let total := Z.of_nat (length selected) in
      let found :=
        "Found " +:+ pretty total +:+ " repositories to process (dest: "
        +:+ dest_dir +:+ ")" in
      let shallow := negb (Args.full args) && negb (Args.mirror args) in
      match make_pool (effective_workers (Args.workers args)) with
      | OutOfFuel => OutOfFuel
      | Exn e => Val (mkRun 1 [found] [] (trace st) [] None None (Some e))
      | Val workers =>
          let futures :=
            imap (fun i r => task (worker_env w i) dest_dir (Args.ssh args) shallow
                               (Args.mirror args) r st0) selected in
          let traces := (fun f => trace f.2) <$> futures in
          match gather (fst <$> futures) (completion w) [] with
          | OutOfFuel => OutOfFuel
          | Exn e => Val (mkRun 1 [found] [] (trace st) traces None None (Some e))
          | Val results =>
              let ok := count_ok results in
              let failed := failures results in
              let printed :=
                [found; nl +:+ "Summary:";
                 "  Success: " +:+ pretty ok +:+ "/" +:+ pretty total]
                ++ (if bool_decide (failed = []) then []
                    else "  Failures:" :: (String.append "    - " <$> failed)) in
              let rep := mkReport workers results ok failed in
              let log_path :=
                path_join dest_dir ("clone_summary_" +:+ pretty (log_time w) +:+ ".log") in
              match write_log w log_path (log_text results) with
              | Some e =>
                  Val (mkRun 1 printed [] (trace st) traces (Some rep) None (Some e))
              | None =>
                  Val (mkRun 0
                         (printed ++ [nl +:+ "Detailed log saved to: " +:+ log_path])
                         [] (trace st) traces (Some rep)
                         (Some (log_path, log_text results)) None)
              end
          end
      end
      end
  end
  end.

(** ** Reading traces, and the vocabulary of the specification *)

Definition pages_of (t : list Event) : list Z :=
  omap (fun e => match e with EvGet _ p => Some p | _ => None end) t.

Definition sleeps_of (t : list Event) : list Z :=
  omap (fun e => match e with EvSleep s => Some s | _ => None end) t.

Definition git_calls_of (t : list Event) : list (list string * option string) :=
  omap (fun e => match e with EvGit a c => Some (a, c) | _ => None end) t.

(** The command line of the clone, for a URL that is a string. *)
Definition clone_argv (shallow mirror : bool) (url target : string) : list string :=
  ["git"; "clone"]
  ++ (if mirror then ["--mirror"] else [])
  ++ (if shallow && negb mirror then ["--depth"; "1"; "--no-single-branch"] else [])
  ++ [url; target].

(** What the retry loop leaves in the trace for attempts that exited
    with [codes], all followed by a retry. *)
Fixpoint retry_trace (retries : Z) (argv : list string) (name : string)
    (codes : list Z) (attempt delay : Z) : list Event :=
  match codes with
  | [] => []
  | c :: codes' =>
      [EvGit argv None;
       EvWrite (retry_notice retries name c delay (attempt + 1));
       EvSleep delay]
      ++ retry_trace retries argv name codes' (attempt + 1) (delay * 2)
  end.

(** 5s, 10s, 20s, ...: [k] sleeps. *)
Definition backoff (k : nat) : list Z :=
  (fun i => 5 * 2 ^ Z.of_nat i) <$> seq 0 k.

Definition total (l : list Z) : Z := fold_right Z.add 0 l.

(** A descriptor [clone_one] can work with: the name and the chosen URL
    are strings. *)
Definition well_formed (repo : gmap string PyVal) (use_ssh : bool)
    (name url : string) : Prop :=
  repo !! "name" = Some (PStr name) /\
  repo !! (if use_ssh then "ssh_url" else "clone_url") = Some (PStr url).

Definition target_of (dest_dir name : string) (mirror : bool) : string :=
  path_join dest_dir (name +:+ (if mirror then ".git" else EmptyString)).

(** The outcome variants of the specification, and the line the script
    writes for each (lines 155, 172, 179 and 237). *)
Inductive CloneOutcome :=
| Cloned (name : string)
| Updated (name : string)
| Failed (detail : string).

Definition render (o : CloneOutcome) : string :=
  match o with
  | Cloned n => "cloned: " +:+ n
  | Updated n => "updated: " +:+ n
  | Failed d => "failed: " +:+ d
  end.

Definition is_success (o : CloneOutcome) : bool :=
  match o with Failed _ => false | _ => true end.

Definition is_failure (o : CloneOutcome) : bool := negb (is_success o).

(** Example inputs. *)
Definition demo_repo (n : string) (arch : bool) : gmap string PyVal :=
  {[ "name" := PStr n;
     "clone_url" := PStr ("https://github.com/electronicarts/" +:+ n +:+ ".git");
     "ssh_url" := PStr ("git@github.com:electronicarts/" +:+ n +:+ ".git");
     "archived" := PBool arch ]}.

(** No checkout on disk; every [git] exits with [code]. *)
Definition always_exit (code : Z) : WorkerEnv :=
  mkWorkerEnv (fun _ => false) (fun _ _ _ => Exit code).

(** A checkout on disk; the successive [git] runs end as listed, and
    exit with 0 after that. *)
Definition scripted (on_disk : bool) (runs : list GitResult) : WorkerEnv :=
  mkWorkerEnv (fun _ => on_disk) (fun n _ _ => nth n runs (Exit 0)).

Definition no_git : PyExn :=
  Raise "FileNotFoundError" "[Errno 2] No such file or directory: 'git'".

(** A rate-limit answer, and an answer that is a page of the listing. *)
Definition is_limited (a : HttpResult) : bool :=
  match a with
  | Got resp => rate_limited resp
  | NetErr _ => false
  end.

Definition page_data (a : HttpResult) : option (list Entry) :=
  match a with
  | Got resp =>
      if rate_limited resp || http_error resp then None
      else match json resp with
           | JArray data => Some data
           | _ => None
           end
  | NetErr _ => None
  end.

(** The page numbers asked for against [answers], from [page] on: the
    same number again after a rate-limit answer, the next one after a
    page. *)
Fixpoint page_numbers (answers : list HttpResult) (page : Z) : list Z :=
  match answers with
  | [] => []
  | a :: answers' =>
      page :: page_numbers answers' (if is_limited a then page else page + 1)
  end.

Definition is_dict (r : Entry) : bool :=
  match r with EDict _ => true | EOther _ => false end.

Definition entry_archived (r : Entry) : bool :=
  match r with EDict d => archived d | EOther _ => false end.

(** The entries of a page that the listing keeps. *)
Definition kept (include_archived : bool) (data : list Entry) : list Entry :=
  List.filter (fun r => include_archived || negb (entry_archived r)) data.

(** A page the loop can go through: with [include_archived] any page,
    without it a page whose elements are all objects. *)
Definition readable (include_archived : bool) (data : list Entry) : Prop :=
  include_archived = true \/ Forall (fun r => is_dict r = true) data.

(** The rate-limit answers among [pre] ask for sleeps that [time.sleep]
    takes, [first] being the number of requests made when the first
    answer of [pre] is read. *)
Definition sleepable (lenv : ListerEnv) (first : nat) (pre : list HttpResult)
    : Prop :=
  forall i resp,
    pre !! i = Some (Got resp) -> rate_limited resp = true ->
    sleep lenv (wait_seconds lenv resp (clock lenv (first + i))) = None.

(** An answer the loop goes on from: a rate-limit answer, or a page with
    entries that it can go through. *)
Definition passable (include_archived : bool) (a : HttpResult) : Prop :=
  is_limited a = true
  \/ exists d, page_data a = Some d /\ d <> [] /\ readable include_archived d.

(** Stand-ins for [int] and [str.strip] in the examples: [sample_int]
    reads a run of ASCII digits and refuses everything else, which is
    what [int] does on the header values of the examples;
    [sample_strip] leaves a text without blanks around it as it is. *)
Definition digit_of (c : ascii) : option Z :=
  let n := nat_of_ascii c in
  if ((48 <=? n) && (n <=? 57))%nat then Some (Z.of_nat n - 48) else None.

Fixpoint digits (s : string) (acc : Z) : option Z :=
  match s with
  | EmptyString => Some acc
  | String c tl =>
      match digit_of c with
      | Some d => digits tl (10 * acc + d)
      | None => None
      end
  end.

Definition sample_int (s : string) : option Z :=
  match s with
  | EmptyString => None
  | _ => digits s 0
  end.

Definition sample_strip (s : string) : string := s.

(** [time.sleep] of CPython: the length is turned into a 64-bit count of
    nanoseconds, so that the longest sleep in whole seconds is
    9223372036; a longer one raises [OverflowError], and a negative one
    [ValueError]. *)
Definition sleep_limit : Z := 9223372036.

Definition sleep_overflow : PyExn :=
  Raise "OverflowError" "timestamp too large to convert to C _PyTime_t".

Definition cpython_sleep (secs : Z) : option PyExn :=
  if secs <? 0 then Some (Raise "ValueError" "sleep length must be non-negative")
  else if sleep_limit <? secs then Some sleep_overflow
  else None.

Definition demo_lister : ListerEnv :=
  mkListerEnv (fun _ => 1700000000) sample_int sample_strip cpython_sleep.

Definition ok_page (data : list (gmap string PyVal)) : HttpResult :=
  Got (mkResponse 200 "[...]" (fun _ => None) (JArray (EDict <$> data))
         (Raise "HTTPError" EmptyString)).

(** The URL of the request for the first page, as the HTTP client puts
    it into the message of its errors. *)
Definition first_page_url : string :=
  "https://api.github.com/orgs/electronicarts/repos?per_page=100&page=1&type=all&sort=full_name&direction=asc".

Definition limited_response (reset : option string) : Response :=
  mkResponse 403 "API rate limit exceeded for 203.0.113.7."
    (fun k => if String.eqb k "X-RateLimit-Reset" then reset else None)
    (JOther "{...}")
    (Raise "HTTPError" ("403 Client Error: Forbidden for url: " +:+ first_page_url)).

Definition limited (reset : option string) : HttpResult :=
  Got (limited_response reset).

Definition server_error_response : Response :=
  mkResponse 500 "Internal Server Error" (fun _ => None)
    (JInvalid (Raise "JSONDecodeError" "Expecting value: line 1 column 1 (char 0)"))
    (Raise "HTTPError"
       ("500 Server Error: Internal Server Error for url: " +:+ first_page_url)).

Definition server_error : HttpResult := Got server_error_response.

(** The lines of a text file: each ends at a newline; a last line
    without one counts if it is not empty. *)
Fixpoint split_lines (s cur : string) : list string :=
  match s with
  | EmptyString => if String.eqb cur EmptyString then [] else [cur]
  | String c tl =>
      if Ascii.eqb c (ascii_of_nat 10) then cur :: split_lines tl EmptyString
      else split_lines tl (cur +:+ String c EmptyString)
  end.

Fixpoint no_newline (s : string) : bool :=
  match s with
  | EmptyString => true
  | String c tl => negb (Ascii.eqb c (ascii_of_nat 10)) && no_newline tl
  end.

(** The entry the orchestrator records for a future. *)
Definition entry_of (r : Res string) : string :=
  match r with
  | Val out => out
  | Exn e => render (Failed (exn_str e))
  | OutOfFuel => EmptyString
  end.

(** The futures of a run, in submission order. *)
Definition futures_of (args : Args.t) (w : World)
    (repos : list (gmap string PyVal)) : list (Res string) :=
  imap (fun i r =>
          (task (worker_env w i) (abspath w (Args.dest args)) (Args.ssh args)
             (negb (Args.full args) && negb (Args.mirror args))
             (Args.mirror args) r st0).1)
       (select <$> repos).

(** Three repositories, none on disk yet; the second cannot be cloned
    and there is no [git] for the third. *)
Definition demo_world : World :=
  mkWorld (fun d => "/w/" +:+ d) (fun _ => None)
    [ok_page [demo_repo "apt" false; demo_repo "cnc" false; demo_repo "EASTL" false];
     ok_page []]
    demo_lister
    (fun i => match i with
              | O => always_exit 0
              | 1%nat => always_exit 128
              | _ => scripted false [Raises no_git]
              end)
    [2%nat; 0%nat; 1%nat]
    1700000123
    (fun _ _ => None).

(** One listed repository, workers that all see [env], a disk on which
    the directory can be made and the log written. *)
Definition small_world (answers : list HttpResult) (env : WorkerEnv)
    (order : list nat) : World :=
  mkWorld (fun d => "/w/" +:+ d) (fun _ => None) answers demo_lister
    (fun _ => env) order 1700000123 (fun _ _ => None).

Definition demo_args (workers : Z) : Args.t :=
  Args.mk "electronicarts" None false false workers false false.

(** How often the progress bar was advanced. *)
Definition ticks_of (t : list Event) : nat :=
  length (List.filter (fun e => match e with EvTick => true | _ => false end) t).

Definition headers_of (t : list Event) : list (gmap string string) :=
  omap (fun e => match e with EvGet h _ => Some h | _ => None end) t.

(** The command of the update attempt that runs first. *)
Definition update_argv (mirror : bool) : list string :=
  if mirror then ["git"; "remote"; "update"; "--prune"]
  else ["git"; "fetch"; "--all"; "--prune"].

(** The options between [git clone] and the URL. *)
Definition clone_options (shallow mirror : bool) : list string :=
  (if mirror then ["--mirror"] else [])
  ++ (if shallow && negb mirror then ["--depth"; "1"; "--no-single-branch"] else []).

(** The key of the URL that [clone_one] reads. *)
Definition url_key (use_ssh : bool) : string :=
  if use_ssh then "ssh_url" else "clone_url".

(** A page whose entries are all archived repositories. *)
Definition all_archived (a : HttpResult) : Prop :=
  exists d,
    page_data a = Some d /\ d <> []
    /\ Forall (fun r => is_dict r = true /\ entry_archived r = true) d.

(** The path of the log file. *)
Definition log_path_of (args : Args.t) (w : World) : string :=
  path_join (abspath w (Args.dest args))
    ("clone_summary_" +:+ pretty (log_time w) +:+ ".log").

(** ** The worker *)

Section WorkerFacts.
Variable env : WorkerEnv.
Variables shallow mirror : bool.
Variable retries : Z.

Lemma mapM_strs (l : list string) : mapM as_str (strs l) = Some l.
Proof.
  unfold strs. induction l as [|x l IH]; [reflexivity|].
  cbn. rewrite IH. reflexivity.
Qed.

Lemma mapM_clone_cmd (url target : string) :
  mapM as_str (clone_cmd shallow mirror (PStr url) target)
  = Some (clone_argv shallow mirror url target).
Proof.
  unfold clone_cmd, clone_argv. destruct mirror, shallow; reflexivity.
Qed.

Lemma run_git_cmd_exit args argv cwd st code :
  mapM as_str args = Some argv ->
  git env (calls st) argv cwd = Exit code ->
  run_git_cmd env args cwd st
  = (Val code, mkSt (S (calls st)) (trace st ++ [EvGit argv cwd])).
Proof. intros Ha Hg. unfold run_git_cmd. rewrite Ha, Hg. reflexivity. Qed.

Lemma run_git_cmd_raises args argv cwd st e :
  mapM as_str args = Some argv ->
  git env (calls st) argv cwd = Raises e ->
  run_git_cmd env args cwd st
  = (Exn e, mkSt (S (calls st)) (trace st ++ [EvGit argv cwd])).
Proof. intros Ha Hg. unfold run_git_cmd. rewrite Ha, Hg. reflexivity. Qed.

(** The retry loop on a run of failing attempts [codes] followed by an
    attempt that exits with [last], which either succeeds or is the
    final attempt. *)
Lemma clone_loop_run cmd argv name codes :
  mapM as_str cmd = Some argv ->
  forall fuel attempt delay st last,
    Forall (fun c => c <> 0) codes ->
    (forall i c, codes !! i = Some c ->
                 git env (calls st + i) argv None = Exit c) ->
    git env (calls st + length codes) argv None = Exit last ->
    attempt + Z.of_nat (length codes) <= retries ->
    last = 0 \/ attempt + Z.of_nat (length codes) = retries ->
    (length codes + 1 < fuel)%nat ->
    clone_loop env retries fuel cmd name attempt delay st
    = (Val ((if last =? 0 then "cloned: " else "failed: ") +:+ name),
       mkSt (calls st + length codes + 1)
            (trace st ++ retry_trace retries argv name codes attempt delay
                      ++ [EvGit argv None])).
Proof.
  intros Hcmd. induction codes as [|c codes IH];
    intros fuel attempt delay st last Hnz Hgit Hlast Hle Hend Hfuel.
  - cbn [length] in *. rewrite Nat.add_0_r in Hlast.
    destruct fuel as [|fuel]; [lia|]. cbn [clone_loop].
    replace (attempt <=? retries) with true by lia.
    unfold bind. rewrite (run_git_cmd_exit _ _ _ _ _ Hcmd Hlast).
    destruct (Z.eqb_spec last 0) as [->|Hne].
    + unfold ret. cbn. do 2 f_equal. lia.
    + replace (attempt + 1 <=? retries) with false by lia.
      destruct fuel as [|fuel]; [lia|]. cbn [clone_loop].
      replace (attempt + 1 <=? retries) with false by lia.
      unfold ret. cbn. do 2 f_equal. lia.
  - cbn [length] in *. inversion Hnz as [|? ? Hc Hnz']; subst.
    destruct fuel as [|fuel]; [lia|]. cbn [clone_loop].
    replace (attempt <=? retries) with true by lia.
    unfold bind.
    assert (Hfirst : git env (calls st) argv None = Exit c).
    { specialize (Hgit 0%nat c eq_refl). now rewrite Nat.add_0_r in Hgit. }
    rewrite (run_git_cmd_exit _ _ _ _ _ Hcmd Hfirst).
    replace (c =? 0) with false by lia.
    replace (attempt + 1 <=? retries) with true by lia.
    unfold emit. cbn [calls trace].
    rewrite (IH fuel (attempt + 1) (delay * 2) _ last Hnz'); cbn [calls trace].
    + f_equal. f_equal; [lia|].
      cbn [retry_trace]. rewrite <- !app_assoc. reflexivity.
    + intros i c' Hi. specialize (Hgit (S i) c' Hi).
      now replace (S (calls st) + i)%nat with (calls st + S i)%nat by lia.
    + now replace (S (calls st) + length codes)%nat
        with (calls st + S (length codes))%nat by lia.
    + lia.
    + lia.
    + lia.
Qed.

Lemma sleeps_of_app t1 t2 : sleeps_of (t1 ++ t2) = sleeps_of t1 ++ sleeps_of t2.
Proof. apply omap_app. Qed.

Lemma sleeps_of_retry_trace argv name codes attempt delay :
  sleeps_of (retry_trace retries argv name codes attempt delay)
  = (fun i => delay * 2 ^ Z.of_nat i) <$> seq 0 (length codes).
Proof.
  revert attempt delay. induction codes as [|c codes IH]; intros attempt delay.
  - reflexivity.
  - cbn [retry_trace length seq fmap list_fmap].
    change (sleeps_of ([?a; ?b; EvSleep ?d] ++ ?t)) with (d :: sleeps_of t).
    rewrite IH. f_equal; [cbn; lia|].
    rewrite <- seq_shift, <- list_fmap_compose.
    apply list_fmap_ext. intros _ i _. cbn [compose].
    rewrite Nat2Z.inj_succ, Z.pow_succ_r by lia. lia.
Qed.

Lemma total_app l1 l2 : total (l1 ++ l2) = total l1 + total l2.
Proof.
  unfold total. induction l1 as [|x l1 IH]; cbn [app fold_right]; lia.
Qed.

Lemma total_backoff k : total (backoff k) = 5 * (2 ^ Z.of_nat k - 1).
Proof.
  unfold backoff. induction k as [|k IH]; [reflexivity|].
  rewrite seq_S, fmap_app, total_app, IH.
  cbn [fmap list_fmap total fold_right Nat.add].
  rewrite Nat2Z.inj_succ, Z.pow_succ_r by lia. lia.
Qed.

Variable repo : gmap string PyVal.
Variable dest_dir : string.
Variable use_ssh : bool.

(** The update attempt never lets an exception out, and never runs out
    of fuel. *)
Lemma update_existing_returns name target st :
  exists r st', update_existing env mirror name target st = (Val r, st').
Proof.
  unfold update_existing. destruct (path_exists env target); [|unfold ret; eauto].
  unfold catch, update_attempt, bind, run_git_cmd.
  destruct mirror.
  - rewrite mapM_strs. destruct (git env _ _ _) as [code|e]; unfold ret; [|eauto].
    destruct (code =? 0); eauto.
  - rewrite mapM_strs. destruct (git env _ _ _) as [code|e]; unfold ret; [|eauto].
    destruct (Z.eqb_spec code 0) as [->|Hne].
    + rewrite mapM_strs. cbn [calls trace].
      destruct (git env _ _ _) as [code'|e]; cbn; eauto.
    + replace (code =? 0) with false by lia. eauto.
Qed.

(** Past line 141 the worker is the update attempt followed, unless
    that returned, by the retry loop. *)
Lemma clone_one_unfold name url st :
  well_formed repo use_ssh name url ->
  clone_one env repo dest_dir use_ssh shallow mirror retries st
  = match update_existing env mirror name (target_of dest_dir name mirror) st with
    | (Val (Some outcome), st') => (Val outcome, st')
    | (Val None, st') =>
        clone_loop env retries (clone_fuel retries)
          (clone_cmd shallow mirror (PStr url) (target_of dest_dir name mirror))
          name 0 5 st'
    | (Exn e, st') => (Exn e, st')
    | (OutOfFuel, st') => (OutOfFuel, st')
    end.
Proof.
  intros [Hn Hu]. unfold clone_one, getitem, bind, lift. rewrite Hn, Hu.
  cbn [add_str as_str default]. fold (target_of dest_dir name mirror).
  destruct (update_existing _ _ _ _ st) as [[[o|]|e|] st']; reflexivity.
Qed.

(** The retry loop only adds to the trace. *)
Lemma clone_loop_extends cmd name fuel :
  forall attempt delay st,
    exists t, trace (clone_loop env retries fuel cmd name attempt delay st).2
              = trace st ++ t.
Proof.
  induction fuel as [|fuel IH]; intros attempt delay st; cbn [clone_loop].
  - exists []. cbn. now rewrite app_nil_r.
  - destruct (attempt <=? retries); [|exists []; cbn; now rewrite app_nil_r].
    unfold bind, run_git_cmd.
    destruct (mapM as_str cmd) as [argv|]; [|exists []; cbn; now rewrite app_nil_r].
    destruct (git env _ _ _) as [code|e]; [|eexists; reflexivity].
    destruct (code =? 0); [eexists; reflexivity|].
    destruct (attempt + 1 <=? retries); unfold emit; cbn [calls trace].
    + edestruct IH as [t Ht]. rewrite Ht. cbn [trace].
      rewrite <- !app_assoc. eexists. reflexivity.
    + edestruct IH as [t Ht]. rewrite Ht. cbn [trace].
      rewrite <- !app_assoc. eexists. reflexivity.
Qed.

(** With the fuel [clone_one] gives it, the loop ends: in an outcome,
    or in the exception a clone invocation raised. *)
Lemma clone_loop_cases cmd argv name :
  mapM as_str cmd = Some argv ->
  forall fuel attempt delay st,
    (Z.to_nat (retries + 1 - attempt) < fuel)%nat ->
    match clone_loop env retries fuel cmd name attempt delay st with
    | (Val out, _) => out = render (Cloned name) \/ out = render (Failed name)
    | (Exn e, st') =>
        exists k, git env k argv None = Raises e
                  /\ last (trace st') = Some (EvGit argv None)
    | (OutOfFuel, _) => False
    end.
Proof.
  intros Hcmd. induction fuel as [|fuel IH]; intros attempt delay st Hfuel; [lia|].
  cbn [clone_loop]. destruct (Z.leb_spec attempt retries) as [Hle|Hgt].
  - unfold bind, run_git_cmd. rewrite Hcmd.
    destruct (git env (calls st) argv None) as [code|e] eqn:Hg.
    + destruct (code =? 0); [cbn; now left|].
      destruct (attempt + 1 <=? retries); unfold emit; cbn [calls trace];
        apply IH; lia.
    + exists (calls st). split; [exact Hg|]. cbn [trace]. apply last_snoc.
  - cbn. now right.
Qed.

Lemma clone_loop_bad_cmd cmd name fuel attempt delay st :
  mapM as_str cmd = None ->
  match clone_loop env retries (S fuel) cmd name attempt delay st with
  | (Val out, _) => out = render (Failed name)
  | (Exn e, _) => True
  | (OutOfFuel, _) => False
  end.
Proof.
  intros Hcmd. cbn [clone_loop]. destruct (attempt <=? retries); [|reflexivity].
  unfold bind, run_git_cmd. rewrite Hcmd. exact I.
Qed.

Lemma update_existing_outcome name target st r st' :
  update_existing env mirror name target st = (Val (Some r), st') ->
  r = render (Updated name).
Proof.
  unfold update_existing. destruct (path_exists env target); [|unfold ret; congruence].
  unfold catch, update_attempt, bind.
  destruct (if mirror then _ else _) as [[code| |] st1].
  - destruct (code =? 0); unfold ret; intros [= <- <-]; reflexivity.
  - unfold ret. congruence.
  - congruence.
Qed.
End WorkerFacts.

(** [C2]: what the claim says of the Failed outcome does not hold.  The
    outcome of a clone that failed on every attempt is the same whether the
    last exit status was 1 or 128, so no exit status can be read off it. *)
Lemma failed_outcome_omits_exit_code :
  ~ exists code_of : string -> Z,
      forall last, last <> 0 ->
        exists out st',
          clone_one (always_exit last) (demo_repo "apt" false) "/w/electronicarts"
            false true false 2 st0 = (Val out, st')
          /\ code_of out = last.
Proof.
  intros [code_of H].
  destruct (H 1 ltac:(lia)) as (out1 & st1 & E1 & C1).
  destruct (H 128 ltac:(lia)) as (out2 & st2 & E2 & C2).
  vm_compute in E1, E2. injection E1 as <- <-. injection E2 as <- <-.
  rewrite C1 in C2. discriminate C2.
Qed.

(** [C2], amended: on the fresh-clone path a clone that exits nonzero is
    run again, at most [retries] more times, after sleeps of 5s, 10s,
    20s, ...; an attempt that exits zero (the final one included) gives
    [cloned: name]; when every attempt has failed the outcome is
    [failed: name], which carries the name only. *)
Theorem clone_one_retry_backoff env repo dest_dir use_ssh shallow mirror retries
    name url st st1 codes last :
  let target := target_of dest_dir name mirror in
  let argv := clone_argv shallow mirror url target in
  well_formed repo use_ssh name url ->
  update_existing env mirror name target st = (Val None, st1) ->
  Forall (fun c => c <> 0) codes ->
  (forall i c, codes !! i = Some c -> git env (calls st1 + i) argv None = Exit c) ->
  git env (calls st1 + length codes) argv None = Exit last ->
  Z.of_nat (length codes) <= retries ->
  last = 0 \/ Z.of_nat (length codes) = retries ->
  exists st',
    clone_one env repo dest_dir use_ssh shallow mirror retries st
    = (Val (if last =? 0 then render (Cloned name) else render (Failed name)), st')
    /\ trace st' = trace st1 ++ retry_trace retries argv name codes 0 5
                             ++ [EvGit argv None]
    /\ sleeps_of (trace st') = sleeps_of (trace st1) ++ backoff (length codes)
    /\ total (backoff (length codes)) = 5 * (2 ^ Z.of_nat (length codes) - 1).
Proof.
  intros target argv Hwf Hupd Hnz Hgit Hlast Hle Hend.
  rewrite (clone_one_unfold _ _ _ _ _ _ _ _ _ _ Hwf). fold target. rewrite Hupd.
  rewrite (clone_loop_run env retries _ argv name codes
             (mapM_clone_cmd _ _ _ _) (clone_fuel retries) 0 5 st1 last);
    try assumption; try lia.
  - eexists. split; [destruct (last =? 0); reflexivity|]. cbn [trace].
    split; [reflexivity|]. split; [|apply total_backoff].
    rewrite !sleeps_of_app, sleeps_of_retry_trace. cbn [sleeps_of omap].
    now rewrite app_nil_r.
  - unfold clone_fuel. lia.
Qed.

Lemma clone_one_retry_backoff_witness :
  exists st',
    clone_one (scripted false [Exit 1; Exit 128; Exit 0]) (demo_repo "apt" false)
      "/w/electronicarts" false true false 2 st0
    = (Val "cloned: apt", st')
    /\ sleeps_of (trace st') = [5; 10].
Proof.
  destruct (clone_one_retry_backoff
              (scripted false [Exit 1; Exit 128; Exit 0]) (demo_repo "apt" false)
              "/w/electronicarts" false true false 2 "apt"
              "https://github.com/electronicarts/apt.git" st0 st0 [1; 128] 0)
    as (st' & Hrun & _ & Hsleep & _).
  - split; reflexivity.
  - reflexivity.
  - repeat constructor; lia.
  - intros [|[|i]] c H; inversion H; reflexivity.
  - reflexivity.
  - cbn. lia.
  - now left.
  - exists st'. split; [exact Hrun | exact Hsleep].
Defined.

(** [C3]: in non-mirror mode, with the checkout on disk and a fetch that
    exits zero, the worker returns [updated: name] whatever the exit
    status of the pull that follows. *)
Theorem update_ignores_pull_status env repo dest_dir use_ssh shallow retries
    name url st pull :
  let target := target_of dest_dir name false in
  well_formed repo use_ssh name url ->
  path_exists env target = true ->
  git env (calls st) ["git"; "fetch"; "--all"; "--prune"] (Some target) = Exit 0 ->
  git env (S (calls st)) ["git"; "pull"; "--ff-only"] (Some target) = Exit pull ->
  clone_one env repo dest_dir use_ssh shallow false retries st
  = (Val (render (Updated name)),
     mkSt (S (S (calls st)))
          (trace st ++ [EvGit ["git"; "fetch"; "--all"; "--prune"] (Some target);
                        EvGit ["git"; "pull"; "--ff-only"] (Some target)])).
Proof.
  intros target Hwf Hex Hfetch Hpull.
  rewrite (clone_one_unfold _ _ _ _ _ _ _ _ _ _ Hwf). fold target.
  unfold update_existing. rewrite Hex.
  unfold catch, update_attempt, bind.
  rewrite (run_git_cmd_exit env _ _ _ _ _ (mapM_strs _) Hfetch).
  change (0 =? 0) with true. cbv beta iota.
  rewrite (run_git_cmd_exit env _ _ _ (mkSt (S (calls st)) _) _ (mapM_strs _) Hpull).
  unfold ret. cbn. now rewrite <- app_assoc.
Qed.

Lemma update_ignores_pull_status_witness :
  (clone_one (scripted true [Exit 0; Exit 1]) (demo_repo "apt" false)
     "/w/electronicarts" false true false 2 st0).1
  = Val "updated: apt".
Proof.
  rewrite (update_ignores_pull_status
             (scripted true [Exit 0; Exit 1]) (demo_repo "apt" false)
             "/w/electronicarts" false true 2 "apt"
             "https://github.com/electronicarts/apt.git" st0 1).
  - reflexivity.
  - split; reflexivity.
  - reflexivity.
  - reflexivity.
  - reflexivity.
Defined.

(** A pull that cannot be started has no exit status: the exception is
    swallowed with the rest of the update attempt and the worker goes on
    to the clone. *)
Example pull_that_raises_falls_through :
  (clone_one (scripted true [Exit 0; Raises no_git; Exit 0]) (demo_repo "apt" false)
     "/w/electronicarts" false true false 2 st0).1
  = Val "cloned: apt".
Proof. reflexivity. Qed.

(** [C9]: with the checkout on disk, an update command (the mirror's
    remote update, or the fetch) that exits nonzero ends the update
    attempt without an outcome; no pull is run; the worker goes on to the
    clone command, whose last argument is the path that is still there,
    and the outcome is the one of the retry loop. *)
Theorem failed_update_falls_through env repo dest_dir use_ssh shallow mirror
    retries name url st code :
  let target := target_of dest_dir name mirror in
  let update :=
    if mirror then ["git"; "remote"; "update"; "--prune"]
    else ["git"; "fetch"; "--all"; "--prune"] in
  let st1 := mkSt (S (calls st)) (trace st ++ [EvGit update (Some target)]) in
  well_formed repo use_ssh name url ->
  path_exists env target = true ->
  git env (calls st) update (Some target) = Exit code ->
  code <> 0 ->
  clone_one env repo dest_dir use_ssh shallow mirror retries st
  = clone_loop env retries (clone_fuel retries)
      (clone_cmd shallow mirror (PStr url) target) name 0 5 st1
  /\ last (clone_argv shallow mirror url target) = Some target
  /\ (0 <= retries ->
      exists t,
        trace (clone_one env repo dest_dir use_ssh shallow mirror retries st).2
        = trace st ++ [EvGit update (Some target);
                       EvGit (clone_argv shallow mirror url target) None] ++ t).
Proof.
  intros target update st1 Hwf Hex Hgit Hne.
  assert (Hupd : update_existing env mirror name target st = (Val None, st1)).
  { unfold update_existing. rewrite Hex. unfold catch, update_attempt, bind.
    assert (Hc : (code =? 0) = false) by lia.
    subst update st1. destruct mirror;
      rewrite (run_git_cmd_exit env _ _ _ _ _ (mapM_strs _) Hgit);
      unfold ret; cbv beta iota; rewrite ?Hc; cbv beta iota; rewrite ?Hc;
      reflexivity. }
  assert (Hone : clone_one env repo dest_dir use_ssh shallow mirror retries st
                 = clone_loop env retries (clone_fuel retries)
                     (clone_cmd shallow mirror (PStr url) target) name 0 5 st1).
  { rewrite (clone_one_unfold _ _ _ _ _ _ _ _ _ _ Hwf). fold target.
    now rewrite Hupd. }
  split; [exact Hone|]. split.
  - unfold clone_argv. destruct mirror, shallow; reflexivity.
  - intros Hr. rewrite Hone. unfold clone_fuel. cbn [clone_loop].
    replace (0 <=? retries) with true by lia.
    unfold bind, run_git_cmd. rewrite mapM_clone_cmd.
    destruct (git env (calls st1) _ None) as [c|e].
    + destruct (c =? 0).
      * exists []. subst st1. cbn. now rewrite <- app_assoc.
      * destruct (0 + 1 <=? retries); unfold emit; cbn [calls trace];
          match goal with
          | |- context [clone_loop ?e ?r ?f ?c ?n ?a ?d ?s] =>
              destruct (clone_loop_extends e r c n f a d s) as [t Ht]
          end; rewrite Ht; subst st1; cbn [trace];
          rewrite <- !app_assoc; eexists; reflexivity.
    + exists []. subst st1. cbn. now rewrite <- app_assoc.
Qed.

Lemma failed_update_falls_through_witness :
  (clone_one (scripted true [Exit 1; Exit 128; Exit 0]) (demo_repo "apt" false)
     "/w/electronicarts" true true true 2 st0).1
  = Val "cloned: apt".
Proof.
  destruct (failed_update_falls_through
              (scripted true [Exit 1; Exit 128; Exit 0]) (demo_repo "apt" false)
              "/w/electronicarts" true true true 2 "apt"
              "git@github.com:electronicarts/apt.git" st0 1) as (Hrun & _ & _).
  - split; reflexivity.
  - reflexivity.
  - reflexivity.
  - lia.
  - rewrite Hrun. reflexivity.
Defined.


(** A descriptor is fit for [clone_one], or its URL is not a string, or
    it lacks the URL or a name that is a string. *)
Lemma descriptor_cases (repo : gmap string PyVal) (use_ssh : bool) :
  (exists name url, well_formed repo use_ssh name url)
  \/ (exists name url_v,
        repo !! "name" = Some (PStr name)
        /\ repo !! (if use_ssh then "ssh_url" else "clone_url") = Some url_v
        /\ as_str url_v = None)
  \/ (repo !! (if use_ssh then "ssh_url" else "clone_url") = None
      \/ forall name, repo !! "name" <> Some (PStr name)).
Proof.
  destruct (repo !! (if use_ssh then "ssh_url" else "clone_url")) as [url_v|] eqn:Hu;
    [|right; right; now left].
  destruct (repo !! "name") as [[| b | z | name]|] eqn:Hn;
    try (right; right; right; intros name; discriminate).
  destruct (as_str url_v) as [url|] eqn:Hs.
  - left. exists name, url. destruct url_v; try discriminate Hs.
    injection Hs as ->. split; assumption.
  - right; left. exists name, url_v. repeat split; assumption.
Qed.

(** The worker on a descriptor whose name and URL are strings. *)
Lemma clone_one_well_formed env repo dest_dir use_ssh shallow mirror retries
    name url st :
  well_formed repo use_ssh name url ->
  match clone_one env repo dest_dir use_ssh shallow mirror retries st with
  | (Val out, _) =>
      out = render (Cloned name) \/ out = render (Updated name)
      \/ out = render (Failed name)
  | (Exn e, st') =>
      exists k,
        git env k (clone_argv shallow mirror url
                     (target_of dest_dir name mirror)) None = Raises e
        /\ last (trace st')
           = Some (EvGit (clone_argv shallow mirror url
                            (target_of dest_dir name mirror)) None)
  | (OutOfFuel, _) => False
  end.
Proof.
  intros Hwf. rewrite (clone_one_unfold _ _ _ _ _ _ _ _ _ _ Hwf).
  destruct (update_existing_returns env mirror name
              (target_of dest_dir name mirror) st) as (r & st1 & Hupd).
  rewrite Hupd. destruct r as [out|].
  - right; left. eapply update_existing_outcome; eassumption.
  - pose proof (clone_loop_cases env retries _ _ name
                  (mapM_clone_cmd shallow mirror url
                     (target_of dest_dir name mirror))
                  (clone_fuel retries) 0 5 st1) as Hloop.
    destruct (clone_loop _ _ _ _ _ _ _ st1) as [[out|e|] st2].
    + destruct Hloop as [->| ->]; [unfold clone_fuel; lia|now left|now right; right].
    + apply Hloop. unfold clone_fuel. lia.
    + apply Hloop. unfold clone_fuel. lia.
Qed.

(** The worker on a descriptor whose URL is not a string: the update
    attempt does not need the URL, the clone command does. *)
Lemma clone_one_bad_url env (repo : gmap string PyVal) dest_dir (use_ssh : bool)
    shallow mirror retries name url_v st :
  repo !! "name" = Some (PStr name) ->
  repo !! (if use_ssh then "ssh_url" else "clone_url") = Some url_v ->
  as_str url_v = None ->
  match clone_one env repo dest_dir use_ssh shallow mirror retries st with
  | (Val out, _) => out = render (Updated name) \/ out = render (Failed name)
  | (Exn e, _) => True
  | (OutOfFuel, _) => False
  end.
Proof.
  intros Hn Hu Hs. unfold clone_one, getitem, bind, lift. rewrite Hn, Hu.
  cbn [add_str as_str default]. fold (target_of dest_dir name mirror).
  change (id name) with name.
  destruct (update_existing_returns env mirror name
              (target_of dest_dir name mirror) st) as (r & st1 & Hupd).
  rewrite Hupd. destruct r as [out|].
  - left. eapply update_existing_outcome; eassumption.
  - assert (Hbad : mapM as_str (clone_cmd shallow mirror url_v
                                  (target_of dest_dir name mirror)) = None).
    { unfold clone_cmd. destruct mirror, shallow; cbn; rewrite Hs; reflexivity. }
    pose proof (clone_loop_bad_cmd env retries _ name
                  (Z.to_nat (retries + 1)) 0 5 st1 Hbad) as Hloop.
    unfold clone_fuel.
    destruct (clone_loop _ _ _ _ _ _ _ st1) as [[out|e|] st2];
      [now right|exact I|exact Hloop].
Qed.

(** The worker on a descriptor without the URL, or without a name that
    is a string: lines 137 to 141 raise. *)
Lemma clone_one_malformed env (repo : gmap string PyVal) dest_dir (use_ssh : bool)
    shallow mirror retries st :
  repo !! (if use_ssh then "ssh_url" else "clone_url") = None
  \/ (forall name, repo !! "name" <> Some (PStr name)) ->
  exists e,
    clone_one env repo dest_dir use_ssh shallow mirror retries st = (Exn e, st).
Proof.
  intros H. unfold clone_one, getitem, bind, lift.
  destruct (repo !! "name") as [[| b | z | name]|] eqn:Hn;
    destruct (repo !! (if use_ssh then "ssh_url" else "clone_url")) as [u|] eqn:Hu;
    cbn [add_str]; try (eexists; reflexivity).
  destruct H as [H|H]; [discriminate H|]. exfalso. exact (H name eq_refl).
Qed.

(** However the descriptor looks, the worker ends: with an outcome line,
    or with an exception. *)
Lemma clone_one_ends env repo dest_dir use_ssh shallow mirror retries st :
  match clone_one env repo dest_dir use_ssh shallow mirror retries st with
  | (Val out, _) => exists o, out = render o
  | (Exn e, _) => True
  | (OutOfFuel, _) => False
  end.
Proof.
  destruct (descriptor_cases repo use_ssh)
    as [(name & url & Hwf) | [(name & url_v & Hn & Hu & Hs) | Hbad]].
  - pose proof (clone_one_well_formed env repo dest_dir use_ssh shallow mirror
                  retries name url st Hwf) as H.
    destruct (clone_one _ _ _ _ _ _ _ st) as [[out|e|] st']; [|exact I|exact H].
    destruct H as [->|[->| ->]]; eexists; reflexivity.
  - pose proof (clone_one_bad_url env repo dest_dir use_ssh shallow mirror
                  retries name url_v st Hn Hu Hs) as H.
    destruct (clone_one _ _ _ _ _ _ _ st) as [[out|e|] st']; [|exact I|exact H].
    destruct H as [->| ->]; eexists; reflexivity.
  - destruct (clone_one_malformed env repo dest_dir use_ssh shallow mirror
                retries st Hbad) as (e & ->). exact I.
Qed.

(** ** The lister *)

Lemma filter_all {A} (l : list A) : List.filter (fun _ => true) l = l.
Proof. induction l as [|x l IH]; cbn; [reflexivity|now rewrite IH]. Qed.

Lemma kept_true data : kept true data = data.
Proof. unfold kept. cbn [orb]. apply filter_all. Qed.

(** Going through a page that is readable keeps its entries, in order;
    going through one that is not raises at its first element that is
    not an object. *)
Lemma keep_page_readable inc data :
  readable inc data ->
  forall repos, keep_page inc data repos = Val (repos ++ kept inc data).
Proof.
  intros [-> | Hd].
  - rewrite kept_true. induction data as [|r data IH]; intros repos.
    + cbn. now rewrite app_nil_r.
    + cbn [keep_page]. rewrite IH, <- app_assoc. reflexivity.
  - destruct inc.
    + rewrite kept_true. clear Hd. induction data as [|r data IH]; intros repos.
      * cbn. now rewrite app_nil_r.
      * cbn [keep_page]. rewrite IH, <- app_assoc. reflexivity.
    + unfold kept. induction Hd as [|r data Hr _ IH]; intros repos.
      * cbn. now rewrite app_nil_r.
      * destruct r as [d|ty]; [|discriminate Hr].
        cbn [keep_page List.filter entry_archived orb].
        destruct (archived d); cbn [negb]; [apply IH|].
        rewrite IH, <- app_assoc. reflexivity.
Qed.

Lemma keep_page_returns inc data :
  forall repos out,
    keep_page inc data repos = Val out ->
    readable inc data /\ out = repos ++ kept inc data.
Proof.
  destruct inc.
  - intros repos out H. assert (Hr : readable true data) by now left.
    split; [exact Hr|]. rewrite (keep_page_readable true data Hr) in H.
    now injection H as <-.
  - induction data as [|r data IH]; intros repos out H.
    + cbn in H. injection H as <-. split; [right; constructor|].
      cbn. now rewrite app_nil_r.
    + destruct r as [d|ty]; [|discriminate H]. cbn [keep_page] in H.
      unfold kept. cbn [List.filter entry_archived orb].
      destruct (archived d); cbn [negb].
      * destruct (IH _ _ H) as [[Hr|Hr] ->]; [discriminate Hr|].
        split; [right; constructor; [reflexivity|exact Hr]|reflexivity].
      * destruct (IH _ _ H) as [[Hr|Hr] ->]; [discriminate Hr|].
        split; [right; constructor; [reflexivity|exact Hr]|].
        now rewrite <- app_assoc.
Qed.

Lemma pages_of_app t1 t2 : pages_of (t1 ++ t2) = pages_of t1 ++ pages_of t2.
Proof. apply omap_app. Qed.

Section ListerFacts.
Variable lenv : ListerEnv.
Variable token : option string.

Lemma wait_seconds_cases resp now :
  1 <= wait_seconds lenv resp now
  /\ (header resp "X-RateLimit-Reset" = None -> wait_seconds lenv resp now = 60)
  /\ (forall v, header resp "X-RateLimit-Reset" = Some v ->
                v = EmptyString \/ int_of lenv v = None ->
                wait_seconds lenv resp now = 60)
  /\ (forall v t, header resp "X-RateLimit-Reset" = Some v ->
                  v <> EmptyString -> int_of lenv v = Some t ->
                  wait_seconds lenv resp now = Z.max 1 (t - now)).
Proof.
  unfold wait_seconds.
  destruct (header resp "X-RateLimit-Reset") as [v|]; cbn.
  - destruct (String.eqb_spec v EmptyString) as [->|Hv].
    + split; [lia|]. split; [reflexivity|]. split; [reflexivity|].
      intros v t [= <-] Hne. congruence.
    + destruct (int_of lenv v) as [t|] eqn:Hp.
      * split; [lia|]. split; [discriminate|]. split.
        -- intros v' [= <-] [->|Hnone]; congruence.
        -- intros v' t' [= <-] _. rewrite Hp. intros [= <-]. reflexivity.
      * split; [lia|]. split; [reflexivity|]. split; [reflexivity|].
        intros v' t' [= <-] _. rewrite Hp. discriminate.
  - split; [lia|]. split; [reflexivity|]. split; discriminate.
Qed.

(** One turn of the loop on a rate-limit answer: the sleep, and the
    same page again. *)
Lemma fetch_loop_limited inc resp rest page repos st :
  rate_limited resp = true ->
  sleep lenv (wait_seconds lenv resp (clock lenv (S (calls st)))) = None ->
  fetch_loop lenv token inc (Got resp :: rest) page repos st
  = fetch_loop lenv token inc rest page repos
      (mkSt (S (calls st))
         (trace st
          ++ [EvGet (request_headers lenv token) page;
              EvWrite ("Hit rate limit. Sleeping "
                       +:+ pretty (wait_seconds lenv resp (clock lenv (S (calls st))))
                       +:+ " seconds...");
              EvSleep (wait_seconds lenv resp (clock lenv (S (calls st))))])).
Proof.
  intros Hrl Hs. cbn [fetch_loop]. unfold bind at 1. rewrite Hrl.
  unfold bind, py_sleep, emit, throw. cbn [calls trace]. rewrite Hs.
  cbn [calls trace]. rewrite <- !app_assoc. reflexivity.
Qed.

(** One turn of the loop on a rate-limit answer whose sleep raises: the
    notice is written, and the exception leaves the loop. *)
Lemma fetch_loop_sleep_raises inc resp rest page repos st e :
  rate_limited resp = true ->
  sleep lenv (wait_seconds lenv resp (clock lenv (S (calls st)))) = Some e ->
  fetch_loop lenv token inc (Got resp :: rest) page repos st
  = (Exn e,
     mkSt (S (calls st))
       (trace st
        ++ [EvGet (request_headers lenv token) page;
            EvWrite ("Hit rate limit. Sleeping "
                     +:+ pretty (wait_seconds lenv resp (clock lenv (S (calls st))))
                     +:+ " seconds...")])).
Proof.
  intros Hrl Hs. cbn [fetch_loop]. unfold bind at 1. rewrite Hrl.
  unfold bind, py_sleep, emit, throw. cbn [calls trace]. rewrite Hs.
  rewrite <- !app_assoc. reflexivity.
Qed.

(** One turn of the loop on a page that is not empty. *)
Lemma fetch_loop_page inc a data rest page repos st :
  page_data a = Some data -> data <> [] -> readable inc data ->
  fetch_loop lenv token inc (a :: rest) page repos st
  = fetch_loop lenv token inc rest (page + 1) (repos ++ kept inc data)
      (mkSt (S (calls st))
         (trace st ++ [EvGet (request_headers lenv token) page; EvTick])).
Proof.
  intros Hd Hne Hr. destruct a as [resp|e]; [|discriminate Hd]. cbn in Hd.
  destruct (rate_limited resp) eqn:Hrl; [discriminate Hd|].
  destruct (http_error resp) eqn:Herr; [discriminate Hd|]. cbn in Hd.
  cbn [fetch_loop]. unfold bind at 1. rewrite Hrl.
  unfold bind, raise_for_status. rewrite Herr.
  destruct (json resp) as [items| |]; try discriminate Hd.
  injection Hd as ->. destruct data as [|r data]; [congruence|].
  unfold ret, lift. cbv beta iota.
  rewrite (keep_page_readable inc (r :: data) Hr).
  unfold emit. cbn [calls trace]. rewrite <- app_assoc. reflexivity.
Qed.

(** One turn of the loop on a page that cannot be read: without
    [include_archived], an element that is not an object ends the
    listing. *)
Lemma fetch_loop_unreadable inc a data rest page repos st :
  page_data a = Some data -> ~ readable inc data ->
  exists e,
    fetch_loop lenv token inc (a :: rest) page repos st
    = (Exn e,
       mkSt (S (calls st)) (trace st ++ [EvGet (request_headers lenv token) page])).
Proof.
  intros Hd Hr. destruct a as [resp|e]; [|discriminate Hd]. cbn in Hd.
  destruct (rate_limited resp) eqn:Hrl; [discriminate Hd|].
  destruct (http_error resp) eqn:Herr; [discriminate Hd|]. cbn in Hd.
  cbn [fetch_loop]. unfold bind at 1. rewrite Hrl.
  unfold bind, raise_for_status. rewrite Herr.
  destruct (json resp) as [items| |]; try discriminate Hd.
  injection Hd as ->. destruct data as [|r data].
  { exfalso. apply Hr. right. constructor. }
  unfold ret, lift. cbv beta iota.
  destruct (keep_page inc (r :: data) repos) as [out|e|] eqn:Hk.
  - exfalso. apply Hr. apply (keep_page_returns _ _ _ _ Hk).
  - eexists. reflexivity.
  - exfalso. clear Hr. revert repos Hk. generalize (r :: data).
    induction l as [|x l IH]; intros repos Hk; [discriminate|].
    cbn [keep_page] in Hk. destruct inc; [eauto|].
    destruct x as [d|ty]; [|discriminate]. destruct (archived d); eauto.
Qed.

(** The turn of the loop on the empty page. *)
Lemma fetch_loop_empty inc a rest page repos st :
  page_data a = Some [] ->
  fetch_loop lenv token inc (a :: rest) page repos st
  = (Val repos,
     mkSt (S (calls st)) (trace st ++ [EvGet (request_headers lenv token) page])).
Proof.
  intros Hd. destruct a as [resp|e]; [|discriminate Hd]. cbn in Hd.
  destruct (rate_limited resp) eqn:Hrl; [discriminate Hd|].
  destruct (http_error resp) eqn:Herr; [discriminate Hd|]. cbn in Hd.
  cbn [fetch_loop]. unfold bind at 1. rewrite Hrl.
  unfold bind, raise_for_status. rewrite Herr.
  destruct (json resp) as [items| |]; try discriminate Hd.
  injection Hd as ->. reflexivity.
Qed.

(** An answer that is neither a rate-limit answer nor a page ends the
    listing with an exception. *)
Lemma fetch_loop_fatal inc a rest page repos st :
  is_limited a = false -> page_data a = None ->
  exists e,
    fetch_loop lenv token inc (a :: rest) page repos st
    = (Exn e,
       mkSt (S (calls st)) (trace st ++ [EvGet (request_headers lenv token) page]))
    /\ match a with
       | Got resp => http_error resp = true -> e = status_error resp
       | NetErr e' => e = e'
       end.
Proof.
  intros Hrl Hd. destruct a as [resp|e]; cbn in Hrl, Hd.
  - rewrite Hrl in Hd. cbn in Hd.
    cbn [fetch_loop]. unfold bind at 1. rewrite Hrl.
    unfold bind, raise_for_status.
    destruct (http_error resp) eqn:Herr.
    + eexists. split; [reflexivity|]. reflexivity.
    + destruct (json resp) as [items| |]; try discriminate Hd;
        (eexists; split; [reflexivity|intros; discriminate]).
  - exists e. split; reflexivity.
Qed.

Lemma page_numbers_ge answers :
  forall page, Forall (Z.le page) (page_numbers answers page).
Proof.
  induction answers as [|a answers IH]; intros page; cbn [page_numbers];
    constructor; [lia|].
  eapply Forall_impl; [apply IH|]. cbn. intros q Hq.
  destruct (is_limited a); lia.
Qed.

Lemma page_numbers_sorted answers :
  forall page, StronglySorted Z.le (page_numbers answers page).
Proof.
  induction answers as [|a answers IH]; intros page; cbn [page_numbers];
    constructor; [apply IH|].
  eapply Forall_impl; [apply page_numbers_ge|]. cbn. intros q Hq.
  destruct (is_limited a); lia.
Qed.

Lemma page_numbers_consecutive answers :
  Forall (fun a => is_limited a = false) answers ->
  forall page,
    page_numbers answers page
    = (fun i => page + Z.of_nat i) <$> seq 0 (length answers).
Proof.
  induction 1 as [|a answers Ha _ IH]; intros page; [reflexivity|].
  cbn [page_numbers length seq fmap list_fmap]. rewrite Ha, IH.
  f_equal; [lia|].
  rewrite <- seq_shift, <- list_fmap_compose.
  apply list_fmap_ext. intros _ i _. cbn [compose]. lia.
Qed.

Lemma sleepable_tail first a pre :
  sleepable lenv first (a :: pre) -> sleepable lenv (S first) pre.
Proof.
  intros H i resp Hi Hrl. specialize (H (S i) resp Hi Hrl).
  now replace (S first + i)%nat with (first + S i)%nat by lia.
Qed.

Lemma sleepable_head first resp pre :
  sleepable lenv first (Got resp :: pre) -> rate_limited resp = true ->
  sleep lenv (wait_seconds lenv resp (clock lenv first)) = None.
Proof.
  intros H Hrl. specialize (H 0%nat resp eq_refl Hrl).
  now rewrite Nat.add_0_r in H.
Qed.

Lemma omap_page_data_cons a pre :
  omap page_data (a :: pre)
  = match page_data a with
    | Some d => d :: omap page_data pre
    | None => omap page_data pre
    end.
Proof. reflexivity. Qed.

Lemma page_not_limited a d :
  page_data a = Some d -> is_limited a = false.
Proof.
  destruct a as [resp|x]; [|reflexivity]. cbn.
  destruct (rate_limited resp); [discriminate|reflexivity].
Qed.

Lemma limited_no_page a : is_limited a = true -> page_data a = None.
Proof.
  destruct a as [resp|x]; [|discriminate]. cbn. now intros ->.
Qed.

(** The loop against rate-limit answers and readable pages, up to the
    first empty page. *)
Lemma fetch_loop_pages inc pre e rest :
  Forall (passable inc) pre ->
  page_data e = Some [] ->
  forall page repos st,
    sleepable lenv (S (calls st)) pre ->
    exists st',
      fetch_loop lenv token inc (pre ++ e :: rest) page repos st
      = (Val (repos ++ concat (kept inc <$> omap page_data pre)), st')
      /\ pages_of (trace st')
         = pages_of (trace st) ++ page_numbers (pre ++ [e]) page.
Proof.
  intros Hpre He. induction Hpre as [|a pre Ha _ IH]; intros page repos st Hsl.
  - cbn [app]. rewrite (fetch_loop_empty _ _ _ _ _ _ He).
    eexists. split; [cbn; now rewrite app_nil_r|].
    cbn [trace page_numbers]. now rewrite pages_of_app.
  - cbn [app page_numbers]. rewrite omap_page_data_cons.
    destruct Ha as [Hl|(d & Hd & Hne & Hr)].
    + rewrite (limited_no_page _ Hl).
      destruct a as [resp|x]; [|discriminate Hl]. cbn in Hl.
      rewrite (fetch_loop_limited _ _ _ _ _ _ Hl (sleepable_head _ _ _ Hsl Hl)).
      edestruct IH as (st' & Hrun & Hpages);
        [|rewrite Hrun; eexists; split; [reflexivity|]].
      * cbn [calls]. eapply sleepable_tail. exact Hsl.
      * rewrite Hpages. cbn [trace is_limited]. rewrite Hl, pages_of_app.
        cbn. now rewrite <- app_assoc.
    + rewrite Hd. rewrite (fetch_loop_page _ _ _ _ _ _ _ Hd Hne Hr).
      edestruct IH as (st' & Hrun & Hpages);
        [|rewrite Hrun; eexists; split;
          [cbn [fmap list_fmap concat]; now rewrite <- app_assoc|]].
      * cbn [calls]. eapply sleepable_tail. exact Hsl.
      * rewrite Hpages. cbn [trace].
        rewrite (page_not_limited _ _ Hd), pages_of_app.
        cbn. now rewrite <- app_assoc.
Qed.

(** If the listing without archived repositories returns, the listing
    with them returns too, after the same events, and what the first
    returns is the second with the archived entries taken out. *)
Lemma fetch_loop_false_true answers :
  forall page repos_t repos_f st lf st',
    repos_f = List.filter (fun r => negb (entry_archived r)) repos_t ->
    fetch_loop lenv token false answers page repos_f st = (Val lf, st') ->
    exists lt,
      fetch_loop lenv token true answers page repos_t st = (Val lt, st')
      /\ lf = List.filter (fun r => negb (entry_archived r)) lt.
Proof.
  induction answers as [|a answers IH]; intros page repos_t repos_f st lf st' Hf;
    [discriminate|].
  cbn [fetch_loop]. unfold bind at 1 2. cbv beta iota.
  destruct a as [resp|e]; [|discriminate].
  destruct (rate_limited resp).
  - unfold bind, py_sleep, emit, throw. cbn [calls trace].
    destruct (sleep lenv _); [discriminate|].
    cbn [calls trace]. apply IH. exact Hf.
  - unfold bind, raise_for_status. destruct (http_error resp); [discriminate|].
    unfold ret, lift. cbv beta iota.
    destruct (json resp) as [[|r data]| |]; try discriminate.
    + intros [= <- <-]. eexists. split; [reflexivity|exact Hf].
    + destruct (keep_page false (r :: data) repos_f) as [out|e|] eqn:Hk;
        try discriminate.
      destruct (keep_page_returns _ _ _ _ Hk) as [_ ->].
      rewrite (keep_page_readable true (r :: data) (or_introl eq_refl)).
      unfold emit. cbn [calls trace]. apply IH.
      rewrite kept_true, List.filter_app, <- Hf. reflexivity.
Qed.

(** The loop only adds to the trace, and starts with a request for the
    page it was entered with. *)
Lemma fetch_loop_extends inc answers :
  forall page repos st,
    exists t, trace (fetch_loop lenv token inc answers page repos st).2
              = trace st ++ t.
Proof.
  induction answers as [|a answers IH]; intros page repos st.
  - exists []. cbn. now rewrite app_nil_r.
  - cbn [fetch_loop]. unfold bind at 1. cbv beta iota.
    destruct a as [resp|e]; [|eexists; reflexivity].
    destruct (rate_limited resp).
    + unfold bind, py_sleep, emit, throw. cbn [calls trace].
      destruct (sleep lenv _);
        [eexists; cbn; rewrite <- app_assoc; reflexivity|].
      cbn [calls trace].
      edestruct IH as [t Ht]. rewrite Ht. cbn [trace].
      rewrite <- !app_assoc. eexists. reflexivity.
    + unfold bind, raise_for_status.
      destruct (http_error resp); [eexists; reflexivity|].
      unfold ret, lift. cbv beta iota.
      destruct (json resp) as [[|r data]| |]; try (eexists; reflexivity).
      destruct (keep_page inc (r :: data) repos) as [out|e|];
        try (eexists; reflexivity).
      unfold emit. cbn [calls trace].
      edestruct IH as [t Ht]. rewrite Ht. cbn [trace].
      rewrite <- !app_assoc. eexists. reflexivity.
Qed.

Lemma fetch_loop_first_request inc a answers page repos st :
  exists t, trace (fetch_loop lenv token inc (a :: answers) page repos st).2
            = trace st ++ EvGet (request_headers lenv token) page :: t.
Proof.
  cbn [fetch_loop]. unfold bind at 1. cbv beta iota.
  destruct a as [resp|e]; [|eexists; reflexivity].
  destruct (rate_limited resp).
  - unfold bind, py_sleep, emit, throw. cbn [calls trace].
    destruct (sleep lenv _);
      [eexists; cbn; rewrite <- app_assoc; reflexivity|].
    cbn [calls trace].
    edestruct (fetch_loop_extends inc answers) as [t Ht]. rewrite Ht.
    cbn [trace]. rewrite <- !app_assoc. eexists. reflexivity.
  - unfold bind, raise_for_status.
    destruct (http_error resp); [eexists; reflexivity|].
    unfold ret, lift. cbv beta iota.
    destruct (json resp) as [[|r data]| |]; try (eexists; reflexivity).
    destruct (keep_page inc (r :: data) repos) as [out|e|];
      try (eexists; reflexivity).
    unfold emit. cbn [calls trace].
    edestruct (fetch_loop_extends inc answers) as [t Ht]. rewrite Ht.
    cbn [trace]. rewrite <- !app_assoc. eexists. reflexivity.
Qed.
End ListerFacts.

Lemma concat_kept_true (pages : list (list Entry)) :
  concat (kept true <$> pages) = concat pages.
Proof.
  induction pages as [|d pages IH]; [reflexivity|].
  cbn [fmap list_fmap concat]. now rewrite kept_true, IH.
Qed.

Lemma concat_kept_false (pages : list (list Entry)) :
  concat (kept false <$> pages)
  = List.filter (fun r => negb (entry_archived r)) (concat pages).
Proof.
  induction pages as [|d pages IH]; [reflexivity|].
  cbn [fmap list_fmap concat]. now rewrite List.filter_app, IH.
Qed.

(** Pages that can be gone through with [include_archived] and hold
    only objects can be gone through without it. *)
Lemma passable_dicts pre :
  Forall (passable true) pre ->
  Forall (fun r => is_dict r = true) (concat (omap page_data pre)) ->
  Forall (passable false) pre.
Proof.
  induction 1 as [|a pre Ha _ IH]; intros Hd; [constructor|].
  rewrite omap_page_data_cons in Hd.
  destruct Ha as [Hl|(d & Hp & Hne & _)].
  - rewrite (limited_no_page _ Hl) in Hd.
    constructor; [now left|apply IH; exact Hd].
  - rewrite Hp in Hd. cbn [concat] in Hd. apply Forall_app in Hd as [Hd1 Hd2].
    constructor; [|apply IH; exact Hd2].
    right. exists d. split; [exact Hp|]. split; [exact Hne|now right].
Qed.

Ltac sleepable_by_cases :=
  let i := fresh "i" in
  let resp := fresh "resp" in
  let Hi := fresh "Hi" in
  let Hrl := fresh "Hrl" in
  intros i resp Hi Hrl;
  repeat (destruct i as [|i];
          [cbn in Hi; injection Hi as <-;
           first [reflexivity | vm_compute in Hrl; discriminate Hrl]|]);
  cbn in Hi; discriminate Hi.

(** [C4]: a rate-limit answer whose reset time lies so far ahead that
    [time.sleep] refuses the wait does not make the lister sleep and ask
    again: the page is asked for once, the [OverflowError] of the sleep
    ends the listing, and [main] exits with status 2. *)
Lemma far_future_reset_ends_listing :
  let answers := [limited (Some "99999999999"); ok_page []] in
  let run := fetch_all_repos demo_lister None false answers st0 in
  is_limited (limited (Some "99999999999")) = true
  /\ wait_seconds demo_lister (limited_response (Some "99999999999"))
       (clock demo_lister 1) = 98299999999
  /\ sleep demo_lister 98299999999 = Some sleep_overflow
  /\ run.1 = Exn sleep_overflow
  /\ pages_of (trace run.2) = [1]
  /\ sleeps_of (trace run.2) = []
  /\ exists r,
       main (demo_args 4) (small_world answers (always_exit 0) []) = Val r
       /\ exit_code r = 2 /\ worker_traces r = [].
Proof.
  cbv zeta. split; [reflexivity|]. split; [reflexivity|]. split; [reflexivity|].
  split; [reflexivity|]. split; [reflexivity|]. split; [reflexivity|].
  eexists. split; [vm_compute; reflexivity|]. split; reflexivity.
Qed.

(** [C4], amended: a response with status 403 and the words "rate
    limit" in its body makes the lister write a notice and call
    [time.sleep] with a wait taken from [X-RateLimit-Reset] (at least
    one second), which is 60 seconds when the header is absent, empty or
    not a number.  When [time.sleep] takes the wait, the lister sleeps
    and asks for the same page again; when it raises, the exception
    leaves the lister and ends the listing.  Any other answer that is not
    a page raises as well, the error of [raise_for_status] when the
    status is an error, and whenever the listing raises [main] exits
    with status 2 without having started a worker. *)
Theorem rate_limit_retries_same_page :
  (forall lenv token inc resp rest page repos st,
     rate_limited resp = true ->
     let wait_s := wait_seconds lenv resp (clock lenv (S (calls st))) in
     let notice := "Hit rate limit. Sleeping " +:+ pretty wait_s +:+ " seconds..." in
     (sleep lenv wait_s = None ->
      fetch_loop lenv token inc (Got resp :: rest) page repos st
      = fetch_loop lenv token inc rest page repos
          (mkSt (S (calls st))
             (trace st ++ [EvGet (request_headers lenv token) page;
                           EvWrite notice; EvSleep wait_s]))
      /\ forall a rest', rest = a :: rest' ->
         exists t,
           trace (fetch_loop lenv token inc (Got resp :: rest) page repos st).2
           = trace st ++ [EvGet (request_headers lenv token) page;
                          EvWrite notice; EvSleep wait_s;
                          EvGet (request_headers lenv token) page] ++ t)
     /\ (forall e, sleep lenv wait_s = Some e ->
         fetch_loop lenv token inc (Got resp :: rest) page repos st
         = (Exn e,
            mkSt (S (calls st))
              (trace st ++ [EvGet (request_headers lenv token) page;
                            EvWrite notice])))
     /\ 1 <= wait_s
     /\ (header resp "X-RateLimit-Reset" = None -> wait_s = 60)
     /\ (forall v, header resp "X-RateLimit-Reset" = Some v ->
                   v = EmptyString \/ int_of lenv v = None -> wait_s = 60)
     /\ (forall v t, header resp "X-RateLimit-Reset" = Some v ->
                     v <> EmptyString -> int_of lenv v = Some t ->
                     wait_s = Z.max 1 (t - clock lenv (S (calls st)))))
  /\ (forall lenv token inc a rest page repos st,
        is_limited a = false -> page_data a = None ->
        exists e,
          fetch_loop lenv token inc (a :: rest) page repos st
          = (Exn e,
             mkSt (S (calls st))
               (trace st ++ [EvGet (request_headers lenv token) page]))
          /\ match a with
             | Got resp => http_error resp = true -> e = status_error resp
             | NetErr e' => e = e'
             end)
  /\ (forall args w e st,
        makedirs w (abspath w (Args.dest args)) = None ->
        fetch_all_repos (lister w) (Args.token args) (Args.include_archived args)
          (answers w) st0 = (Exn e, st) ->
        main args w
        = Val (mkRun 2 [] ["Error fetching repositories list: " +:+ exn_str e]
                 (trace st) [] None None None)).
Proof.
  split; [|split].
  - intros lenv token inc resp rest page repos st Hrl wait_s notice.
    split; [|split].
    + intros Hs. split; [apply fetch_loop_limited; assumption|].
      intros a rest' ->. rewrite (fetch_loop_limited _ _ _ _ _ _ _ _ Hrl Hs).
      edestruct (fetch_loop_first_request lenv token inc a rest') as [t Ht].
      rewrite Ht. cbn [trace]. rewrite <- app_assoc. exists t. reflexivity.
    + intros e Hs. apply fetch_loop_sleep_raises; assumption.
    + apply wait_seconds_cases.
  - intros lenv token inc a rest page repos st Hl Hd.
    apply fetch_loop_fatal; assumption.
  - intros args w e st Hmk H. unfold main. rewrite Hmk, H. reflexivity.
Qed.

Lemma rate_limit_retries_same_page_witness :
  (let run := fetch_all_repos demo_lister None false
                [limited (Some "1700000030"); limited None; limited (Some "soon");
                 ok_page []] st0 in
   run.1 = Val [] /\ pages_of (trace run.2) = [1; 1; 1; 1]
   /\ sleeps_of (trace run.2) = [30; 60; 60])
  /\ (fetch_all_repos demo_lister None false
        [limited (Some "99999999999"); ok_page []] st0).1
     = Exn sleep_overflow
  /\ (fetch_all_repos demo_lister None false
        [server_error; ok_page []] st0).1
     = Exn (Raise "HTTPError"
              ("500 Server Error: Internal Server Error for url: " +:+ first_page_url))
  /\ match main (demo_args 4)
             (small_world [server_error; ok_page []] (always_exit 0) []) with
     | Val run => exit_code run = 2 /\ worker_traces run = []
     | _ => False
     end.
Proof.
  destruct rate_limit_retries_same_page as (Hlim & Hfatal & Hmain).
  split; [|split; [|split]].
  - cbv zeta. unfold fetch_all_repos, limited at 1.
    destruct (Hlim demo_lister None false (limited_response (Some "1700000030"))
                [limited None; limited (Some "soon"); ok_page []] 1 [] st0
                eq_refl) as (Hstep & _).
    destruct (Hstep eq_refl) as [Hrun _].
    rewrite Hrun. vm_compute. repeat split.
  - unfold fetch_all_repos, limited at 1.
    destruct (Hlim demo_lister None false (limited_response (Some "99999999999"))
                [ok_page []] 1 [] st0 eq_refl) as (_ & Hraise & _).
    rewrite (Hraise sleep_overflow eq_refl). reflexivity.
  - destruct (Hfatal demo_lister None false server_error [ok_page []]
                1 [] st0 eq_refl eq_refl) as (e & Hrun & He).
    unfold fetch_all_repos. rewrite Hrun. cbn [fst].
    rewrite (He eq_refl). reflexivity.
  - rewrite (Hmain (demo_args 4)
               (small_world [server_error; ok_page []] (always_exit 0) [])
               (status_error server_error_response)
               (mkSt 1 [EvGet (request_headers demo_lister None) 1])
               eq_refl eq_refl).
    split; reflexivity.
Defined.

(** [C5]: the page numbers asked for are not strictly increasing.  After
    a rate-limit answer page 1 is asked for a second time. *)
Lemma rate_limited_page_is_requested_again :
  let answers := [limited None; ok_page []] in
  let run := fetch_all_repos demo_lister None false answers st0 in
  page_data (ok_page []) = Some [] /\ In (ok_page []) answers
  /\ run.1 = Val []
  /\ pages_of (trace run.2) = [1; 1]
  /\ ~ StronglySorted Z.lt (pages_of (trace run.2)).
Proof.
  cbv zeta. split; [reflexivity|]. split; [right; left; reflexivity|].
  split; [reflexivity|]. split; [reflexivity|].
  change (pages_of _) with [1; 1]. intros H.
  inversion H as [|? ? _ Hall]; subst. inversion Hall as [|? ? Hlt _]; subst. lia.
Qed.

(** [C5], amended: against rate-limit answers that the lister can sleep
    out and non-empty pages that it can go through, followed by an empty
    page, the listing ends at that empty page, whatever would come after
    it.  The page numbers asked for start at 1 and never decrease: a
    number is asked for again after a rate-limit answer and is followed
    by the next one after a page, so that without rate limiting they are
    1, 2, 3, ...  The entries of each page are appended once, in
    order. *)
Theorem listing_stops_at_first_empty_page lenv token inc pre e rest st :
  Forall (passable inc) pre ->
  sleepable lenv (S (calls st)) pre ->
  page_data e = Some [] ->
  exists st',
    fetch_all_repos lenv token inc (pre ++ e :: rest) st
    = (Val (concat (kept inc <$> omap page_data pre)), st')
    /\ pages_of (trace st')
       = pages_of (trace st) ++ page_numbers (pre ++ [e]) 1
    /\ hd_error (page_numbers (pre ++ [e]) 1) = Some 1
    /\ StronglySorted Z.le (page_numbers (pre ++ [e]) 1)
    /\ (Forall (fun a => is_limited a = false) pre ->
        page_numbers (pre ++ [e]) 1
        = (fun i => 1 + Z.of_nat i) <$> seq 0 (S (length pre))).
Proof.
  intros Hpre Hsl He.
  destruct (fetch_loop_pages lenv token inc pre e rest Hpre He 1 [] st Hsl)
    as (st' & Hrun & Hpages).
  exists st'. split; [exact Hrun|]. split; [exact Hpages|]. split.
  - destruct pre; reflexivity.
  - split; [apply page_numbers_sorted|].
    intros Hnl. rewrite page_numbers_consecutive.
    + rewrite length_app. cbn [length]. now rewrite Nat.add_1_r.
    + apply Forall_app. split; [exact Hnl|]. constructor; [|constructor].
      exact (page_not_limited _ _ He).
Qed.

Lemma listing_stops_at_first_empty_page_witness :
  exists st',
    fetch_all_repos demo_lister None false
      ([ok_page [demo_repo "apt" false; demo_repo "origin" true];
        limited (Some "1700000030");
        ok_page [demo_repo "EASTL" false]]
       ++ ok_page [] :: [server_error]) st0
    = (Val [EDict (demo_repo "apt" false); EDict (demo_repo "EASTL" false)], st')
    /\ pages_of (trace st') = [1; 2; 2; 3].
Proof.
  destruct (listing_stops_at_first_empty_page demo_lister None false
              [ok_page [demo_repo "apt" false; demo_repo "origin" true];
               limited (Some "1700000030");
               ok_page [demo_repo "EASTL" false]]
              (ok_page []) [server_error] st0)
    as (st' & Hrun & Hpages & _).
  - apply Forall_cons_2;
      [right; eexists; split; [reflexivity|];
       split; [discriminate|right; repeat constructor]|].
    apply Forall_cons_2; [left; reflexivity|].
    apply Forall_cons_2;
      [right; eexists; split; [reflexivity|];
       split; [discriminate|right; repeat constructor]|].
    apply Forall_nil_2.
  - sleepable_by_cases.
  - reflexivity.
  - exists st'. split; [exact Hrun | exact Hpages].
Defined.

(** [C6]: the listing with [include_archived] returns every entry of
    every page it fetched, in order; the listing without it returns,
    for the same answers, those of them whose archived flag is not set,
    and only those.  Whenever the listing without [include_archived]
    returns, the one with it returns after the same requests, and the
    first is the second with the archived entries taken out, so that
    the second holds every entry of the first. *)
Theorem include_archived_is_superset lenv token :
  (forall pre e rest st,
     Forall (passable true) pre ->
     sleepable lenv (S (calls st)) pre ->
     page_data e = Some [] ->
     let fetched := concat (omap page_data pre) in
     let unarchived := List.filter (fun r => negb (entry_archived r)) fetched in
     (exists st',
        fetch_all_repos lenv token true (pre ++ e :: rest) st = (Val fetched, st'))
     /\ (Forall (fun r => is_dict r = true) fetched ->
         exists st',
           fetch_all_repos lenv token false (pre ++ e :: rest) st
           = (Val unarchived, st'))
     /\ (forall r, In r unarchived <-> In r fetched /\ entry_archived r = false)
     /\ (forall r, In r unarchived -> In r fetched))
  /\ (forall answers st without st',
        fetch_all_repos lenv token false answers st = (Val without, st') ->
        exists all,
          fetch_all_repos lenv token true answers st = (Val all, st')
          /\ without = List.filter (fun r => negb (entry_archived r)) all
          /\ (forall r, In r without <-> In r all /\ entry_archived r = false))
  /\ (forall data repos,
        keep_page true data repos = Val (repos ++ data)
        /\ (Forall (fun r => is_dict r = true) data ->
            keep_page false data repos
            = Val (repos ++ List.filter (fun r => negb (entry_archived r)) data))).
Proof.
  assert (Hin : forall (l : list Entry) r,
             In r (List.filter (fun r => negb (entry_archived r)) l)
             <-> In r l /\ entry_archived r = false).
  { intros l r. rewrite List.filter_In.
    destruct (entry_archived r); cbn; intuition congruence. }
  split; [|split].
  - intros pre e rest st Hpre Hsl He fetched unarchived. split; [|split; [|split]].
    + destruct (fetch_loop_pages lenv token true pre e rest Hpre He 1 [] st Hsl)
        as (st' & Hrun & _).
      exists st'. unfold fetch_all_repos. rewrite Hrun.
      cbn [app]. now rewrite concat_kept_true.
    + intros Hd.
      destruct (fetch_loop_pages lenv token false pre e rest
                  (passable_dicts pre Hpre Hd) He 1 [] st Hsl)
        as (st' & Hrun & _).
      exists st'. unfold fetch_all_repos. rewrite Hrun.
      cbn [app]. now rewrite concat_kept_false.
    + intros r. apply Hin.
    + intros r Hr. apply Hin in Hr. apply Hr.
  - intros answers st without st' Hrun.
    destruct (fetch_loop_false_true lenv token answers 1 [] [] st without st'
                eq_refl Hrun) as (all & Hall & ->).
    exists all. split; [exact Hall|]. split; [reflexivity|]. intros r. apply Hin.
  - intros data repos. split.
    + rewrite (keep_page_readable true data (or_introl eq_refl)).
      now rewrite kept_true.
    + intros Hd. rewrite (keep_page_readable false data (or_intror Hd)).
      reflexivity.
Qed.

Lemma include_archived_is_superset_witness :
  let answers :=
    [ok_page [demo_repo "apt" false; demo_repo "origin" true];
     limited (Some "1700000030");
     ok_page [demo_repo "EASTL" false]] ++ ok_page [] :: [server_error] in
  (exists st',
     fetch_all_repos demo_lister None true answers st0
     = (Val [EDict (demo_repo "apt" false); EDict (demo_repo "origin" true);
             EDict (demo_repo "EASTL" false)], st'))
  /\ (exists st',
        fetch_all_repos demo_lister None false answers st0
        = (Val [EDict (demo_repo "apt" false); EDict (demo_repo "EASTL" false)],
           st')).
Proof.
  cbv zeta.
  destruct (include_archived_is_superset demo_lister None) as (Hshape & _).
  destruct (Hshape
              [ok_page [demo_repo "apt" false; demo_repo "origin" true];
               limited (Some "1700000030");
               ok_page [demo_repo "EASTL" false]]
              (ok_page []) [server_error] st0)
    as (Hwith & Hwithout & _).
  - apply Forall_cons_2;
      [right; eexists; split; [reflexivity|];
       split; [discriminate|now left]|].
    apply Forall_cons_2; [left; reflexivity|].
    apply Forall_cons_2;
      [right; eexists; split; [reflexivity|];
       split; [discriminate|now left]|].
    apply Forall_nil_2.
  - sleepable_by_cases.
  - reflexivity.
  - split; [exact Hwith|]. apply Hwithout. repeat constructor.
Defined.

(** ** The orchestrator and the summary *)

Lemma append_assoc (s1 s2 s3 : string) : (s1 +:+ s2) +:+ s3 = s1 +:+ (s2 +:+ s3).
Proof.
  induction s1 as [|c s1 IH]; [reflexivity|].
  change (String c ((s1 +:+ s2) +:+ s3) = String c (s1 +:+ (s2 +:+ s3))).
  now rewrite IH.
Qed.

Lemma append_empty_r (s : string) : s +:+ EmptyString = s.
Proof.
  induction s as [|c s IH]; [reflexivity|].
  change (String c (s +:+ EmptyString) = String c s). now rewrite IH.
Qed.

Lemma is_ok_render o : is_ok (render o) = is_success o.
Proof. destruct o; reflexivity. Qed.

Lemma failed_prefix_render o : startswith (render o) "failed:" = is_failure o.
Proof. destruct o; reflexivity. Qed.

Lemma count_ok_filter (results : list string) :
  count_ok results = Z.of_nat (length (List.filter is_ok results)).
Proof.
  unfold count_ok.
  assert (H : forall acc,
             fold_left (fun n r => if is_ok r then n + 1 else n) results acc
             = acc + Z.of_nat (length (List.filter is_ok results))).
  { induction results as [|r results IH]; intros acc; cbn [fold_left List.filter].
    - cbn. lia.
    - rewrite IH. destruct (is_ok r); cbn [length]; lia. }
  apply H.
Qed.

Lemma count_ok_render (outcomes : list CloneOutcome) :
  count_ok (render <$> outcomes)
  = Z.of_nat (length (List.filter is_success outcomes)).
Proof.
  rewrite count_ok_filter. f_equal.
  induction outcomes as [|o l IH]; [reflexivity|].
  cbn [fmap list_fmap List.filter]. rewrite is_ok_render.
  destruct (is_success o); cbn [length]; now rewrite IH.
Qed.

Lemma failures_render (outcomes : list CloneOutcome) :
  failures (render <$> outcomes) = render <$> List.filter is_failure outcomes.
Proof.
  unfold failures. induction outcomes as [|o l IH]; [reflexivity|].
  cbn [fmap list_fmap List.filter]. rewrite failed_prefix_render.
  destruct (is_failure o); cbn [fmap list_fmap]; rewrite <- IH; reflexivity.
Qed.

Lemma log_text_lines (results : list string) :
  log_text results
  = fold_right (fun line rest => line +:+ nl +:+ rest) EmptyString results.
Proof.
  unfold log_text.
  assert (H : forall acc,
             fold_left (fun f line => f +:+ (line +:+ nl)) results acc
             = acc +:+ fold_right (fun line rest => line +:+ nl +:+ rest)
                         EmptyString results).
  { induction results as [|r results IH]; intros acc; cbn [fold_left fold_right].
    - now rewrite append_empty_r.
    - rewrite IH, !append_assoc. reflexivity. }
  apply H.
Qed.

Lemma log_text_render (outcomes : list CloneOutcome) :
  log_text (render <$> outcomes)
  = fold_right (fun o rest => render o +:+ nl +:+ rest) EmptyString outcomes.
Proof.
  rewrite log_text_lines.
  induction outcomes as [|o l IH]; [reflexivity|].
  cbn [fmap list_fmap fold_right]. now rewrite <- IH.
Qed.

Lemma split_lines_line (line : string) :
  no_newline line = true ->
  forall cur rest,
    split_lines (line +:+ nl +:+ rest) cur
    = (cur +:+ line) :: split_lines rest EmptyString.
Proof.
  induction line as [|c line IH]; intros Hnn cur rest.
  - rewrite append_empty_r. reflexivity.
  - cbn [no_newline] in Hnn. apply andb_prop in Hnn as [Hc Hnn].
    change (String c line +:+ nl +:+ rest) with (String c (line +:+ nl +:+ rest)).
    cbn [split_lines].
    destruct (Ascii.eqb c (ascii_of_nat 10)); [discriminate Hc|].
    rewrite (IH Hnn), append_assoc. reflexivity.
Qed.

Lemma split_lines_log_text (results : list string) :
  Forall (fun r => no_newline r = true) results ->
  split_lines (log_text results) EmptyString = results.
Proof.
  rewrite log_text_lines. induction 1 as [|r results Hr _ IH]; [reflexivity|].
  cbn [fold_right]. rewrite (split_lines_line r Hr).
  change (EmptyString +:+ r) with r. now rewrite IH.
Qed.

Lemma make_pool_clamped (requested : Z) :
  make_pool (effective_workers requested) = Val (effective_workers requested).
Proof.
  unfold make_pool, effective_workers.
  destruct (Z.leb_spec (Z.max 1 (Z.min requested 16)) 0); [lia|reflexivity].
Qed.

Lemma task_ends env dest_dir use_ssh shallow mirror r st :
  (task env dest_dir use_ssh shallow mirror r st).1 <> OutOfFuel.
Proof.
  unfold task, bind.
  pose proof (clone_one_ends env r dest_dir use_ssh shallow mirror 2 st) as H.
  destruct (clone_one env r dest_dir use_ssh shallow mirror 2 st) as [[out|e|] st'];
    cbn; [discriminate|discriminate|contradiction].
Qed.

(** What a task hands to the orchestrator is an outcome line, or an
    exception that becomes one. *)
Lemma task_entry env dest_dir use_ssh shallow mirror r st :
  exists o, entry_of (task env dest_dir use_ssh shallow mirror r st).1 = render o.
Proof.
  unfold task, bind.
  pose proof (clone_one_ends env r dest_dir use_ssh shallow mirror 2 st) as H.
  destruct (clone_one env r dest_dir use_ssh shallow mirror 2 st) as [[out|e|] st'];
    cbn.
  - destruct H as (o & ->). exists o. reflexivity.
  - exists (Failed (exn_str e)). reflexivity.
  - contradiction.
Qed.


Lemma gather_entries (futures : list (Res string)) :
  Forall (fun f => f <> OutOfFuel) futures ->
  forall order acc,
    gather futures order acc
    = Val (acc ++ omap (fun i => entry_of <$> futures !! i) order).
Proof.
  intros Hf. induction order as [|i order IH]; intros acc.
  - cbn. now rewrite app_nil_r.
  - cbn [gather].
    change (omap (fun i => entry_of <$> futures !! i) (i :: order))
      with (match entry_of <$> futures !! i with
            | Some y => y :: omap (fun i => entry_of <$> futures !! i) order
            | None => omap (fun i => entry_of <$> futures !! i) order
            end).
    destruct (futures !! i) as [f|] eqn:Hi; cbn [fmap option_fmap option_map].
    + destruct f as [out|e|].
      * rewrite IH, <- app_assoc. reflexivity.
      * rewrite IH, <- app_assoc. reflexivity.
      * exfalso. rewrite Forall_lookup in Hf. exact (Hf i _ Hi eq_refl).
    + apply IH.
Qed.

Lemma omap_lookup_seq {A B} (f : A -> B) (l pre : list A) :
  omap (fun i => f <$> (pre ++ l) !! i) (seq (length pre) (length l)) = f <$> l.
Proof.
  revert pre. induction l as [|x l IH]; intros pre; [reflexivity|].
  cbn [length seq].
  change (omap ?g (?i :: ?t))
    with (match g i with Some y => y :: omap g t | None => omap g t end).
  cbv beta. rewrite list_lookup_middle by reflexivity.
  cbn [fmap option_fmap option_map list_fmap]. f_equal.
  specialize (IH (pre ++ [x])). rewrite length_app in IH. cbn [length] in IH.
  rewrite Nat.add_1_r in IH. rewrite <- IH.
  f_equal. rewrite <- app_assoc. reflexivity.
Qed.

(** Lines 208-213 on a listing of objects, and what a listing on which
    they do not raise looks like. *)
Lemma select_all_dicts (repos : list (gmap string PyVal)) :
  select_all (EDict <$> repos) = Val (select <$> repos).
Proof.
  induction repos as [|r repos IH]; [reflexivity|].
  cbn [fmap list_fmap select_all]. cbn [fmap] in IH. now rewrite IH.
Qed.

Lemma select_all_returns (entries : list Entry) :
  match select_all entries with
  | Val selected =>
      exists repos, entries = EDict <$> repos /\ selected = select <$> repos
  | Exn e => exists ty, In (EOther ty) entries /\ e = no_get ty
  | OutOfFuel => False
  end.
Proof.
  induction entries as [|[d|ty] entries IH]; cbn [select_all].
  - exists []. split; reflexivity.
  - destruct (select_all entries) as [selected|e|].
    + destruct IH as (repos & -> & ->). exists (d :: repos). split; reflexivity.
    + destruct IH as (ty & Hin & ->). exists ty. split; [now right|reflexivity].
    + exact IH.
  - exists ty. split; [now left|reflexivity].
Qed.

Lemma futures_of_main args w repos :
  fst <$> imap (fun i r =>
                  task (worker_env w i) (abspath w (Args.dest args)) (Args.ssh args)
                    (negb (Args.full args) && negb (Args.mirror args))
                    (Args.mirror args) r st0) (select <$> repos)
  = futures_of args w repos.
Proof. unfold futures_of. rewrite fmap_imap. reflexivity. Qed.

Lemma futures_end args w repos :
  Forall (fun f => f <> OutOfFuel) (futures_of args w repos).
Proof.
  unfold futures_of. apply Forall_lookup. intros i f Hi.
  rewrite list_lookup_imap in Hi.
  destruct ((select <$> repos) !! i) as [r|]; [|discriminate Hi].
  injection Hi as <-. apply task_ends.
Qed.

(** A run that can make its directory and lists at least one
    repository, all of them objects, goes through the pool and the
    summary; the log is written last, and a log that cannot be written
    ends the run with the exception of the write. *)
Lemma main_finishes args w r repos st :
  makedirs w (abspath w (Args.dest args)) = None ->
  fetch_all_repos (lister w) (Args.token args) (Args.include_archived args)
    (answers w) st0 = (Val (EDict <$> (r :: repos)), st) ->
  exists run rep,
    main args w = Val run /\ report run = Some rep
    /\ lister_trace run = trace st
    /\ length (worker_traces run) = length (r :: repos)
    /\ pool_size rep = effective_workers (Args.workers args)
    /\ results rep
       = omap (fun i => entry_of <$> futures_of args w (r :: repos) !! i)
           (completion w)
    /\ ok rep = count_ok (results rep)
    /\ failed rep = failures (results rep)
    /\ uncaught run
       = write_log w (log_path_of args w) (log_text (results rep))
    /\ (uncaught run = None ->
        exit_code run = 0
        /\ log_written run = Some (log_path_of args w, log_text (results rep)))
    /\ (uncaught run <> None -> exit_code run = 1 /\ log_written run = None).
Proof.
  intros Hmk Hfetch. unfold main. rewrite Hmk, Hfetch.
  cbn [fmap list_fmap]. change (list_fmap _ _ EDict repos) with (EDict <$> repos).
  change (EDict r :: (EDict <$> repos)) with (EDict <$> (r :: repos)).
  rewrite select_all_dicts, make_pool_clamped. cbv zeta.
  rewrite futures_of_main.
  rewrite (gather_entries _ (futures_end args w (r :: repos))). cbn [app].
  fold (log_path_of args w).
  destruct (write_log w (log_path_of args w)
              (log_text
                 (omap (fun i => entry_of <$> futures_of args w (r :: repos) !! i)
                    (completion w)))) as [e|] eqn:Hw.
  - eexists. eexists. split; [reflexivity|].
    cbn [report exit_code worker_traces lister_trace uncaught log_written
         pool_size results ok failed].
    split; [reflexivity|]. split; [reflexivity|]. split.
    { rewrite length_fmap, length_imap, length_fmap. reflexivity. }
    split; [reflexivity|]. split; [reflexivity|]. split; [reflexivity|].
    split; [reflexivity|]. split; [cbn [results]; now rewrite Hw|].
    split; [discriminate|].
    intros _. split; reflexivity.
  - eexists. eexists. split; [reflexivity|].
    cbn [report exit_code worker_traces lister_trace uncaught log_written
         pool_size results ok failed].
    split; [reflexivity|]. split; [reflexivity|]. split.
    { rewrite length_fmap, length_imap, length_fmap. reflexivity. }
    split; [reflexivity|]. split; [reflexivity|]. split; [reflexivity|].
    split; [reflexivity|]. split; [cbn [results]; now rewrite Hw|].
    split; [intros _; split; reflexivity|]. intros H. now contradiction H.
Qed.

(** A run with a report has made its directory and listed at least one
    repository, all of them objects. *)
Lemma main_report args w run rep :
  main args w = Val run -> report run = Some rep ->
  makedirs w (abspath w (Args.dest args)) = None
  /\ exists r repos st,
       fetch_all_repos (lister w) (Args.token args) (Args.include_archived args)
         (answers w) st0 = (Val (EDict <$> (r :: repos)), st).
Proof.
  unfold main.
  destruct (makedirs w _) as [e|]; [intros [= <-]; discriminate|].
  destruct (fetch_all_repos _ _ _ _ st0) as [[[|x entries]|e|] st];
    try (intros [= <-]; discriminate); try discriminate.
  pose proof (select_all_returns (x :: entries)) as Hsel.
  destruct (select_all (x :: entries)) as [selected|e|];
    try (intros [= <-]; discriminate); try discriminate.
  destruct Hsel as (repos & Hent & _).
  destruct repos as [|r repos]; [discriminate Hent|].
  intros _ _. split; [reflexivity|]. exists r, repos, st. now rewrite Hent.
Qed.

(** The entries of the futures are outcome lines. *)
Lemma futures_entries args w repos (order : list nat) :
  exists outcomes : list CloneOutcome,
    omap (fun i => entry_of <$> futures_of args w repos !! i) order
    = render <$> outcomes.
Proof.
  induction order as [|i order (outcomes & IH)]; [exists []; reflexivity|].
  change (omap ?g (i :: order))
    with (match g i with Some y => y :: omap g order | None => omap g order end).
  cbv beta. unfold futures_of at 1. rewrite list_lookup_imap.
  destruct ((select <$> repos) !! i) as [r|];
    cbn [fmap option_fmap option_map]; [|exists outcomes; exact IH].
  destruct (task_entry (worker_env w i) (abspath w (Args.dest args))
              (Args.ssh args) (negb (Args.full args) && negb (Args.mirror args))
              (Args.mirror args) r st0) as (o & Ho).
  exists (o :: outcomes). rewrite Ho, IH. reflexivity.
Qed.

(** When every submitted future completes once, the results are the
    futures' entries in another order. *)
Lemma results_permutation args w repos :
  Permutation (completion w) (seq 0 (length repos)) ->
  Permutation
    (omap (fun i => entry_of <$> futures_of args w repos !! i) (completion w))
    (entry_of <$> futures_of args w repos).
Proof.
  intros Hperm.
  assert (Hlen : length (futures_of args w repos) = length repos).
  { unfold futures_of. now rewrite length_imap, length_fmap. }
  rewrite <- (omap_lookup_seq entry_of (futures_of args w repos) []).
  cbn [app length seq]. rewrite Hlen.
  apply omap_Permutation. exact Hperm.
Qed.


(** [C7]: the size of the worker pool is [max(1, min(value, 16))] for
    every integer given to [--workers]: 1 for zero and negative values,
    16 for values above 16, the value itself in between; creating the
    pool with it never fails. *)
Theorem workers_clamped (requested : Z) :
  effective_workers requested
  = (if requested <=? 0 then 1 else if 16 <? requested then 16 else requested)
  /\ 1 <= effective_workers requested <= 16
  /\ make_pool (effective_workers requested) = Val (effective_workers requested)
  /\ forall args w run rep,
       Args.workers args = requested ->
       main args w = Val run -> report run = Some rep ->
       pool_size rep = Z.max 1 (Z.min requested 16).
Proof.
  split; [|split; [|split]].
  - unfold effective_workers.
    destruct (Z.leb_spec requested 0); [lia|].
    destruct (Z.ltb_spec 16 requested); lia.
  - unfold effective_workers. lia.
  - apply make_pool_clamped.
  - intros args w run rep Hw Hmain Hrep.
    destruct (main_report args w run rep Hmain Hrep)
      as (Hmk & r & repos & st & Hfetch).
    destruct (main_finishes args w r repos st Hmk Hfetch)
      as (run' & rep' & Hmain' & Hrep' & _ & _ & Hpool & _).
    rewrite Hmain in Hmain'. injection Hmain' as <-.
    rewrite Hrep in Hrep'. injection Hrep' as <-.
    rewrite Hpool, Hw. reflexivity.
Qed.

Lemma workers_clamped_witness :
  (exists run rep,
     main (demo_args 100) demo_world = Val run /\ report run = Some rep
     /\ pool_size rep = 16)
  /\ (exists run rep,
        main (demo_args (-3)) demo_world = Val run /\ report run = Some rep
        /\ pool_size rep = 1).
Proof.
  split.
  - destruct (main (demo_args 100) demo_world) as [run| |] eqn:Hmain;
      try (vm_compute in Hmain; discriminate Hmain).
    destruct (report run) as [rep|] eqn:Hrep.
    + exists run, rep. split; [reflexivity|]. split; [exact Hrep|].
      destruct (workers_clamped 100) as (_ & _ & _ & Hpool).
      exact (Hpool (demo_args 100) demo_world run rep eq_refl Hmain Hrep).
    + vm_compute in Hmain. injection Hmain as <-. discriminate Hrep.
  - destruct (main (demo_args (-3)) demo_world) as [run| |] eqn:Hmain;
      try (vm_compute in Hmain; discriminate Hmain).
    destruct (report run) as [rep|] eqn:Hrep.
    + exists run, rep. split; [reflexivity|]. split; [exact Hrep|].
      destruct (workers_clamped (-3)) as (_ & _ & _ & Hpool).
      exact (Hpool (demo_args (-3)) demo_world run rep eq_refl Hmain Hrep).
    + vm_compute in Hmain. injection Hmain as <-. discriminate Hrep.
Defined.

(** [C8]: the log does not hold exactly one line per outcome.  A worker
    that raises an exception whose message runs over two lines is one
    outcome, [Failed] with that message as its detail; the log that
    [main] writes for it has two lines, the second of which is not of
    the form [<cloned|updated|failed>: ...]. *)
Lemma two_line_detail_gives_two_log_lines :
  let e := Raise "RuntimeError" ("no git" +:+ nl +:+ "giving up") in
  let w := small_world [ok_page [demo_repo "apt" false]; ok_page []]
             (scripted false [Raises e]) [0%nat] in
  exists run rep text,
    main (demo_args 4) w = Val run /\ report run = Some rep
    /\ results rep = [render (Failed (exn_str e))]
    /\ log_written run = Some (log_path_of (demo_args 4) w, text)
    /\ split_lines text EmptyString = ["failed: no git"; "giving up"]
    /\ length (split_lines text EmptyString) <> length (results rep).
Proof.
  cbv zeta. eexists. eexists. eexists.
  split; [vm_compute; reflexivity|]. split; [reflexivity|].
  split; [reflexivity|]. split; [reflexivity|]. split; [reflexivity|].
  discriminate.
Qed.

(** [C8], amended: for every sequence of outcomes, written as the script
    writes them, the success count is the number of cloned and updated
    ones, the failure list is the failed ones in order, and the log is
    the outcomes' lines one after the other, each ended by a newline and
    starting with [cloned: ], [updated: ] or [failed: ]; read back line
    by line the log gives the outcomes again when none of them holds a
    newline of its own.  This is what [main] does with the outcomes of a
    run that lists repositories: its results are the lines of a sequence
    of outcomes, one per repository once every future has completed, the
    summary counts them as above, and the log file, when it can be
    written, is [clone_summary_<time>.log] in the destination directory
    and holds that text. *)
Theorem summary_counts_and_log :
  (forall outcomes : list CloneOutcome,
     let results := render <$> outcomes in
     count_ok results = Z.of_nat (length (List.filter is_success outcomes))
     /\ failures results = render <$> List.filter is_failure outcomes
     /\ count_ok results + Z.of_nat (length (failures results))
        = Z.of_nat (length outcomes)
     /\ log_text results
        = fold_right (fun o rest => render o +:+ nl +:+ rest) EmptyString outcomes
     /\ Forall (fun line => startswith line "cloned: " || startswith line "updated: "
                            || startswith line "failed: " = true) results
     /\ (Forall (fun o => no_newline (render o) = true) outcomes ->
         split_lines (log_text results) EmptyString = results
         /\ length (split_lines (log_text results) EmptyString) = length outcomes))
  /\ (forall args w repos st,
        makedirs w (abspath w (Args.dest args)) = None ->
        fetch_all_repos (lister w) (Args.token args) (Args.include_archived args)
          (answers w) st0 = (Val (EDict <$> repos), st) ->
        repos <> [] ->
        exists run rep (outcomes : list CloneOutcome),
          main args w = Val run /\ report run = Some rep
          /\ results rep = render <$> outcomes
          /\ ok rep = Z.of_nat (length (List.filter is_success outcomes))
          /\ failed rep = render <$> List.filter is_failure outcomes
          /\ (Permutation (completion w) (seq 0 (length repos)) ->
              length outcomes = length repos)
          /\ (write_log w (log_path_of args w) (log_text (results rep)) = None ->
              exit_code run = 0
              /\ log_written run
                 = Some (path_join (abspath w (Args.dest args))
                           ("clone_summary_" +:+ pretty (log_time w) +:+ ".log"),
                         fold_right (fun o rest => render o +:+ nl +:+ rest)
                           EmptyString outcomes)
              /\ (Forall (fun o => no_newline (render o) = true) outcomes ->
                  split_lines (log_text (results rep)) EmptyString = results rep))
          /\ (forall e,
                write_log w (log_path_of args w) (log_text (results rep)) = Some e ->
                uncaught run = Some e /\ exit_code run = 1
                /\ log_written run = None)).
Proof.
  split.
  - intros outcomes. cbv zeta.
    split; [apply count_ok_render|]. split; [apply failures_render|]. split.
    + rewrite count_ok_render, failures_render, length_fmap.
      induction outcomes as [|o l IH]; [reflexivity|].
      cbn [List.filter length]. unfold is_failure at 1.
      destruct (is_success o); cbn [negb length]; lia.
    + split; [apply log_text_render|]. split.
      * apply Forall_fmap, Forall_forall. intros o _.
        destruct o as [[|c n]|[|c n]|[|c d]]; reflexivity.
      * intros Hnn.
        assert (Hlines : split_lines (log_text (render <$> outcomes)) EmptyString
                         = render <$> outcomes).
        { apply split_lines_log_text. apply Forall_fmap. exact Hnn. }
        split; [exact Hlines|]. rewrite Hlines. apply length_fmap.
  - intros args w repos st Hmk Hfetch Hne.
    destruct repos as [|r repos]; [congruence|].
    destruct (main_finishes args w r repos st Hmk Hfetch)
      as (run & rep & Hmain & Hrep & _ & _ & _ & Hres & Hok & Hfail & Hunc
          & Hdone & Hcrash).
    destruct (futures_entries args w (r :: repos) (completion w))
      as (outcomes & Hout).
    rewrite Hout in Hres.
    exists run, rep, outcomes.
    split; [exact Hmain|]. split; [exact Hrep|]. split; [exact Hres|].
    split; [rewrite Hok, Hres; apply count_ok_render|].
    split; [rewrite Hfail, Hres; apply failures_render|]. split; [|split].
    + intros Hperm.
      pose proof (Permutation_length (results_permutation args w (r :: repos) Hperm))
        as Hlen.
      rewrite Hout, !length_fmap in Hlen. rewrite Hlen.
      unfold futures_of. now rewrite length_imap, length_fmap.
    + intros Hw. rewrite Hw in Hunc. destruct (Hdone Hunc) as [Hexit Hlog].
      split; [exact Hexit|]. split.
      * rewrite Hlog, Hres, log_text_render. reflexivity.
      * intros Hnn. rewrite Hres. apply split_lines_log_text.
        apply Forall_fmap. exact Hnn.
    + intros e Hw. rewrite Hw in Hunc. split; [exact Hunc|].
      apply Hcrash. rewrite Hunc. discriminate.
Qed.

Lemma summary_counts_and_log_witness :
  (split_lines
     (log_text ["cloned: apt"; "failed: cnc"; "updated: EASTL"]) EmptyString
   = ["cloned: apt"; "failed: cnc"; "updated: EASTL"])
  /\ exists run rep (outcomes : list CloneOutcome),
       main (demo_args 4) demo_world = Val run /\ report run = Some rep
       /\ results rep = render <$> outcomes
       /\ ok rep = Z.of_nat (length (List.filter is_success outcomes))
       /\ length outcomes = 3%nat
       /\ exit_code run = 0.
Proof.
  destruct summary_counts_and_log as (Hpure & Hmain). split.
  - destruct (Hpure [Cloned "apt"; Failed "cnc"; Updated "EASTL"])
      as (_ & _ & _ & _ & _ & Hlines).
    destruct Hlines as [Hlines _]; [repeat constructor|exact Hlines].
  - destruct (Hmain (demo_args 4) demo_world
                [demo_repo "apt" false; demo_repo "cnc" false;
                 demo_repo "EASTL" false]
                (fetch_all_repos (lister demo_world) None false
                   (answers demo_world) st0).2)
      as (run & rep & outcomes & Hrun & Hrep & Hres & Hok & _ & Hlen & Hlog & _).
    + reflexivity.
    + reflexivity.
    + discriminate.
    + exists run, rep, outcomes.
      split; [exact Hrun|]. split; [exact Hrep|]. split; [exact Hres|].
      split; [exact Hok|]. split.
      * apply Hlen. apply (Permutation_cons_append [0%nat; 1%nat] 2%nat).
      * apply Hlog. reflexivity.
Defined.

(** [C10]: the orchestrator records exactly one entry per descriptor.
    Whatever the order in which the futures complete, the results are the
    entries of the futures in that order, the entry of a task that raised
    being [failed: ] followed by the exception's message. *)
Theorem one_result_per_descriptor args w repos st :
  makedirs w (abspath w (Args.dest args)) = None ->
  fetch_all_repos (lister w) (Args.token args) (Args.include_archived args)
    (answers w) st0 = (Val (EDict <$> repos), st) ->
  repos <> [] ->
  Permutation (completion w) (seq 0 (length repos)) ->
  exists run rep,
    main args w = Val run /\ report run = Some rep
    /\ length (results rep) = length repos
    /\ Permutation (results rep) (entry_of <$> futures_of args w repos)
    /\ results rep
       = omap (fun i => entry_of <$> futures_of args w repos !! i) (completion w)
    /\ length (futures_of args w repos) = length repos
    /\ length (worker_traces run) = length repos.
Proof.
  intros Hmk Hfetch Hne Hperm. destruct repos as [|r repos]; [congruence|].
  destruct (main_finishes args w r repos st Hmk Hfetch)
    as (run & rep & Hmain & Hrep & _ & Htr & _ & Hres & _).
  assert (Hlen : length (futures_of args w (r :: repos)) = length (r :: repos)).
  { unfold futures_of. now rewrite length_imap, length_fmap. }
  assert (Hp : Permutation (results rep)
                 (entry_of <$> futures_of args w (r :: repos))).
  { rewrite Hres. apply results_permutation. exact Hperm. }
  exists run, rep. split; [exact Hmain|]. split; [exact Hrep|]. split.
  - rewrite (Permutation_length Hp), length_fmap. exact Hlen.
  - split; [exact Hp|]. split; [exact Hres|]. split; [exact Hlen|exact Htr].
Qed.

Lemma one_result_per_descriptor_witness :
  exists run rep,
    main (demo_args 4) demo_world = Val run /\ report run = Some rep
    /\ length (results rep) = 3%nat.
Proof.
  destruct (one_result_per_descriptor (demo_args 4) demo_world
              [demo_repo "apt" false; demo_repo "cnc" false; demo_repo "EASTL" false]
              (fetch_all_repos (lister demo_world) None false
                 (answers demo_world) st0).2)
    as (run & rep & Hmain & Hrep & Hlen & _).
  - reflexivity.
  - reflexivity.
  - discriminate.
  - apply (Permutation_cons_append [0%nat; 1%nat] 2%nat).
  - exists run, rep. split; [exact Hmain|]. split; [exact Hrep|exact Hlen].
Defined.


(** ** More on the worker: what it runs, and when *)

Lemma git_calls_of_app t1 t2 :
  git_calls_of (t1 ++ t2) = git_calls_of t1 ++ git_calls_of t2.
Proof. apply omap_app. Qed.

Lemma ticks_of_app t1 t2 : (ticks_of (t1 ++ t2) = ticks_of t1 + ticks_of t2)%nat.
Proof. unfold ticks_of. now rewrite List.filter_app, length_app. Qed.

Section WorkerEffects.
Variable env : WorkerEnv.
Variable retries : Z.
Variable cmd : list PyVal.
Variable argv : list string.
Variable name : string.
Hypothesis Hcmd : mapM as_str cmd = Some argv.

(** What the retry loop does to the outside: [k] clone invocations and
    [j] sleeps, the sleeps doubling from [delay]. *)
Lemma clone_loop_effects fuel :
  forall attempt delay st,
    exists k j : nat,
      Z.of_nat k <= Z.max 0 (retries + 1 - attempt)
      /\ Z.of_nat j <= Z.max 0 (retries - attempt)
      /\ calls (clone_loop env retries fuel cmd name attempt delay st).2
         = (calls st + k)%nat
      /\ git_calls_of (trace (clone_loop env retries fuel cmd name attempt delay st).2)
         = git_calls_of (trace st) ++ replicate k (argv, None)
      /\ sleeps_of (trace (clone_loop env retries fuel cmd name attempt delay st).2)
         = sleeps_of (trace st) ++ ((fun i => delay * 2 ^ Z.of_nat i) <$> seq 0 j)
      /\ ticks_of (trace (clone_loop env retries fuel cmd name attempt delay st).2)
         = ticks_of (trace st).
Proof.
  induction fuel as [|fuel IH]; intros attempt delay st.
  - exists 0%nat, 0%nat. cbn. rewrite !app_nil_r. repeat split; lia.
  - cbn [clone_loop]. destruct (Z.leb_spec attempt retries) as [Hle|Hgt].
    2:{ exists 0%nat, 0%nat. cbn. rewrite !app_nil_r. repeat split; lia. }
    unfold bind, run_git_cmd. rewrite Hcmd.
    destruct (git env (calls st) argv None) as [code|e].
    2:{ exists 1%nat, 0%nat. cbn [snd calls trace].
        rewrite git_calls_of_app, sleeps_of_app, ticks_of_app. cbn.
        rewrite !app_nil_r. repeat split; lia. }
    destruct (Z.eqb_spec code 0) as [->|Hne].
    { exists 1%nat, 0%nat. cbn [snd calls trace ret].
      rewrite git_calls_of_app, sleeps_of_app, ticks_of_app. cbn.
      rewrite !app_nil_r. repeat split; lia. }
    destruct (Z.leb_spec (attempt + 1) retries) as [Hle'|Hgt'];
      unfold emit; cbn [calls trace].
    + match goal with
      | |- context [clone_loop env retries fuel cmd name ?a ?d ?s] =>
          destruct (IH a d s) as (k & j & Hk & Hj & Hc & Hg & Hs & Ht)
      end.
      exists (S k), (S j). rewrite Hc, Hg, Hs, Ht. cbn [calls trace].
      rewrite !git_calls_of_app, !sleeps_of_app, !ticks_of_app. cbn.
      rewrite !app_nil_r, <- !app_assoc. cbn.
      split; [lia|]. split; [lia|]. split; [lia|]. split; [reflexivity|].
      split; [|lia]. do 2 f_equal; [lia|].
      rewrite <- seq_shift, <- list_fmap_compose.
      apply list_fmap_ext. intros _ i _. cbn [compose].
      rewrite Nat2Z.inj_succ, Z.pow_succ_r by lia. lia.
    + match goal with
      | |- context [clone_loop env retries fuel cmd name ?a ?d ?s] =>
          destruct (IH a d s) as (k & j & Hk & Hj & Hc & Hg & Hs & Ht)
      end.
      exists (S k), j. rewrite Hc, Hg, Hs, Ht. cbn [calls trace].
      rewrite !git_calls_of_app, !sleeps_of_app, !ticks_of_app. cbn.
      rewrite !app_nil_r, <- !app_assoc. cbn.
      split; [lia|]. split; [lia|]. split; [lia|]. split; [reflexivity|].
      split; [reflexivity|lia].
Qed.

(** An outcome of the retry loop says how the clone invocations ended:
    [cloned] after one that exited with 0, [failed] after all of them,
    attempts [attempt] to [retries], exited with something else. *)
Lemma clone_loop_sound fuel :
  forall attempt delay st out st',
    clone_loop env retries fuel cmd name attempt delay st = (Val out, st') ->
    (out = render (Cloned name)
     /\ exists k, git env k argv None = Exit 0)
    \/ (out = render (Failed name)
        /\ forall i, attempt <= attempt + Z.of_nat i <= retries ->
                     exists c, c <> 0
                               /\ git env (calls st + i) argv None = Exit c).
Proof.
  induction fuel as [|fuel IH]; intros attempt delay st out st'; [discriminate|].
  cbn [clone_loop]. destruct (Z.leb_spec attempt retries) as [Hle|Hgt].
  2:{ intros [= <- <-]. right. split; [reflexivity|]. intros i Hi. lia. }
  unfold bind, run_git_cmd. rewrite Hcmd.
  destruct (git env (calls st) argv None) as [code|e] eqn:Hg; [|discriminate].
  destruct (Z.eqb_spec code 0) as [->|Hne].
  { intros [= <- <-]. left. split; [reflexivity|]. eauto. }
  assert (Hstep : forall d s,
             clone_loop env retries fuel cmd name (attempt + 1) d s = (Val out, st') ->
             calls s = S (calls st) ->
             (out = render (Cloned name) /\ exists k, git env k argv None = Exit 0)
             \/ (out = render (Failed name)
                 /\ forall i, attempt <= attempt + Z.of_nat i <= retries ->
                              exists c, c <> 0
                                        /\ git env (calls st + i) argv None = Exit c)).
  { intros d s Hrun Hcalls. destruct (IH _ _ _ _ _ Hrun) as [Hc|[Hf Hall]];
      [now left|right]. split; [exact Hf|]. intros [|i] Hi.
    - exists code. rewrite Nat.add_0_r. split; assumption.
    - destruct (Hall i ltac:(lia)) as (c & Hc & Hgit). exists c. split; [exact Hc|].
      rewrite Hcalls in Hgit.
      now replace (calls st + S i)%nat with (S (calls st) + i)%nat by lia. }
  destruct (attempt + 1 <=? retries); unfold emit; cbn [calls trace];
    intros Hrun; eapply Hstep; [exact Hrun|reflexivity|exact Hrun|reflexivity].
Qed.
End WorkerEffects.

Lemma render_cloned_not_updated n m : render (Cloned n) <> render (Updated m).
Proof. discriminate. Qed.

Lemma render_cloned_not_failed n m : render (Cloned n) <> render (Failed m).
Proof. discriminate. Qed.

Lemma render_updated_not_failed n m : render (Updated n) <> render (Failed m).
Proof. discriminate. Qed.

Ltac update_case :=
  split; [reflexivity|]; cbn [calls trace length fmap list_fmap];
  rewrite <- ?app_assoc;
  split; [lia|]; split; [reflexivity|]; split; [lia|];
  split; [intros Hno; discriminate Hno|];
  let out := fresh "out" in
  let Hout := fresh "Hout" in
  intros out Hout;
  first [ discriminate Hout
        | injection Hout as <-; repeat split; first [reflexivity | assumption] ].

(** What the update attempt does to the outside: at most two commands,
    all inside the checkout, and none when there is no checkout. *)
Lemma update_existing_effects env mirror name target st :
  exists r st' (l : list (list string)),
    update_existing env mirror name target st = (Val r, st')
    /\ calls st' = (calls st + length l)%nat
    /\ trace st' = trace st ++ ((fun a => EvGit a (Some target)) <$> l)
    /\ (length l <= 2)%nat
    /\ (path_exists env target = false -> l = [] /\ r = None)
    /\ (forall out, r = Some out ->
          out = render (Updated name)
          /\ path_exists env target = true
          /\ git env (calls st) (update_argv mirror) (Some target) = Exit 0).
Proof.
  unfold update_existing. destruct (path_exists env target) eqn:Hex.
  2:{ exists None, st, []. cbn. rewrite app_nil_r, Nat.add_0_r.
      repeat split; try lia; try discriminate. }
  unfold catch, update_attempt, bind, run_git_cmd, update_argv.
  destruct mirror; rewrite mapM_strs.
  - destruct (git env (calls st) _ (Some target)) as [code|e] eqn:Hg.
    + destruct (Z.eqb_spec code 0) as [->|Hne]; unfold ret;
        eexists _, _, [_]; update_case.
    + unfold ret. eexists _, _, [_]. update_case.
  - destruct (git env (calls st) _ (Some target)) as [code|e] eqn:Hg.
    + destruct (Z.eqb_spec code 0) as [->|Hne]; unfold ret.
      * rewrite mapM_strs. cbn [calls trace].
        destruct (git env (S (calls st)) _ (Some target)) as [code'|e'];
          eexists _, _, [_; _]; update_case.
      * assert (Hc : (code =? 0) = false) by lia.
        cbv beta iota. rewrite Hc. eexists _, _, [_]. update_case.
    + unfold ret. eexists _, _, [_]. update_case.
Qed.

Lemma git_calls_of_updates target (l : list (list string)) :
  git_calls_of ((fun a => EvGit a (Some target)) <$> l)
  = (fun a => (a, Some target)) <$> l.
Proof. induction l as [|a l IH]; [reflexivity|]. cbn. now rewrite <- IH. Qed.

Lemma sleeps_of_updates target (l : list (list string)) :
  sleeps_of ((fun a => EvGit a (Some target)) <$> l) = [].
Proof. induction l as [|a l IH]; [reflexivity|exact IH]. Qed.

Lemma ticks_of_updates target (l : list (list string)) :
  ticks_of ((fun a => EvGit a (Some target)) <$> l) = 0%nat.
Proof. induction l as [|a l IH]; [reflexivity|exact IH]. Qed.

Lemma clone_loop_bad_cmd_state env retries cmd name fuel attempt delay st :
  mapM as_str cmd = None ->
  (clone_loop env retries (S fuel) cmd name attempt delay st).2 = st.
Proof.
  intros Hcmd. cbn [clone_loop]. destruct (attempt <=? retries); [|reflexivity].
  unfold bind, run_git_cmd. rewrite Hcmd. reflexivity.
Qed.

Lemma backoff_total_le (j : nat) (retries : Z) :
  Z.of_nat j <= Z.max 0 retries ->
  total (backoff j) <= 5 * (2 ^ Z.max 0 retries - 1).
Proof.
  intros Hj. rewrite total_backoff.
  assert (2 ^ Z.of_nat j <= 2 ^ Z.max 0 retries)
    by (apply Z.pow_le_mono_r; lia).
  lia.
Qed.

(** What one call of [clone_one] does to the outside, whatever the
    descriptor. *)
Lemma clone_one_effects env repo dest_dir use_ssh shallow mirror retries st :
  exists (g : list (list string * option string)) (j : nat),
    git_calls_of (trace (clone_one env repo dest_dir use_ssh shallow mirror retries st).2)
    = git_calls_of (trace st) ++ g
    /\ Z.of_nat (length g) <= 2 + Z.max 0 (retries + 1)
    /\ sleeps_of (trace (clone_one env repo dest_dir use_ssh shallow mirror retries st).2)
       = sleeps_of (trace st) ++ backoff j
    /\ Z.of_nat j <= Z.max 0 retries
    /\ ticks_of (trace (clone_one env repo dest_dir use_ssh shallow mirror retries st).2)
       = ticks_of (trace st).
Proof.
  destruct (descriptor_cases repo use_ssh)
    as [(name & url & Hwf) | [(name & url_v & Hn & Hu & Hs) | Hbad]].
  - rewrite (clone_one_unfold _ _ _ _ _ _ _ _ _ _ Hwf).
    destruct (update_existing_effects env mirror name
                (target_of dest_dir name mirror) st)
      as (r & st1 & l & Hupd & Hcalls & Htrace & Hlen & _ & _).
    rewrite Hupd. destruct r as [out|]; cbn [snd].
    + exists ((fun a => (a, Some (target_of dest_dir name mirror))) <$> l), 0%nat.
      rewrite Htrace, git_calls_of_app, sleeps_of_app, ticks_of_app,
        git_calls_of_updates, sleeps_of_updates, ticks_of_updates, length_fmap.
      cbn. rewrite Nat.add_0_r.
      repeat split; try reflexivity; try lia.
    + destruct (clone_loop_effects env retries _ _ name
                  (mapM_clone_cmd shallow mirror url (target_of dest_dir name mirror))
                  (clone_fuel retries) 0 5 st1)
        as (k & j & Hk & Hj & _ & Hg & Hsl & Ht).
      exists (((fun a => (a, Some (target_of dest_dir name mirror))) <$> l)
              ++ replicate k (clone_argv shallow mirror url
                                (target_of dest_dir name mirror), None)), j.
      rewrite Hg, Hsl, Ht, Htrace, git_calls_of_app, sleeps_of_app, ticks_of_app,
        git_calls_of_updates, sleeps_of_updates, ticks_of_updates,
        length_app, length_fmap, length_replicate, app_nil_r, <- app_assoc.
      split; [reflexivity|]. split; [lia|]. split; [reflexivity|].
      split; [lia|lia].
  - unfold clone_one, getitem, bind, lift. rewrite Hn, Hu.
    cbn [add_str as_str default]. fold (target_of dest_dir name mirror).
    change (id name) with name.
    destruct (update_existing_effects env mirror name
                (target_of dest_dir name mirror) st)
      as (r & st1 & l & Hupd & Hcalls & Htrace & Hlen & _ & _).
    rewrite Hupd.
    assert (Hend : forall x : Res string * St, x.2 = st1 ->
              exists (g : list (list string * option string)) (j : nat),
                git_calls_of (trace x.2) = git_calls_of (trace st) ++ g
                /\ Z.of_nat (length g) <= 2 + Z.max 0 (retries + 1)
                /\ sleeps_of (trace x.2) = sleeps_of (trace st) ++ backoff j
                /\ Z.of_nat j <= Z.max 0 retries
                /\ ticks_of (trace x.2) = ticks_of (trace st)).
    { intros x ->.
      exists ((fun a => (a, Some (target_of dest_dir name mirror))) <$> l), 0%nat.
      rewrite Htrace, git_calls_of_app, sleeps_of_app, ticks_of_app,
        git_calls_of_updates, sleeps_of_updates, ticks_of_updates, length_fmap.
      cbn. rewrite Nat.add_0_r.
      repeat split; try reflexivity; try lia. }
    destruct r as [out|]; apply Hend; [reflexivity|].
    unfold clone_fuel. apply clone_loop_bad_cmd_state.
    unfold clone_cmd. destruct mirror, shallow; cbn; rewrite Hs; reflexivity.
  - destruct (clone_one_malformed env repo dest_dir use_ssh shallow mirror
                retries st Hbad) as (e & ->).
    exists [], 0%nat. cbn. rewrite !app_nil_r. repeat split; try reflexivity; lia.
Qed.

(** [X1]: whatever the descriptor and however [git] behaves, one call of
    [clone_one] starts [git] at most [2 + (retries + 1)] times, sleeps
    5s, 10s, 20s, ... at most [retries] times (less than
    [5 * 2 ^ retries] seconds in all) and leaves the progress bar alone. *)
Theorem clone_one_resource_bound env repo dest_dir use_ssh shallow mirror
    retries st :
  exists (g : list (list string * option string)) (j : nat),
    git_calls_of (trace (clone_one env repo dest_dir use_ssh shallow mirror retries st).2)
    = git_calls_of (trace st) ++ g
    /\ Z.of_nat (length g) <= 2 + Z.max 0 (retries + 1)
    /\ sleeps_of (trace (clone_one env repo dest_dir use_ssh shallow mirror retries st).2)
       = sleeps_of (trace st) ++ backoff j
    /\ Z.of_nat j <= Z.max 0 retries
    /\ total (backoff j) <= 5 * (2 ^ Z.max 0 retries - 1)
    /\ ticks_of (trace (clone_one env repo dest_dir use_ssh shallow mirror retries st).2)
       = ticks_of (trace st).
Proof.
  destruct (clone_one_effects env repo dest_dir use_ssh shallow mirror retries st)
    as (g & j & Hg & Hlen & Hs & Hj & Ht).
  exists g, j. split; [exact Hg|]. split; [exact Hlen|]. split; [exact Hs|].
  split; [exact Hj|]. split; [|exact Ht].
  apply backoff_total_le. exact Hj.
Qed.

(** [X2]: when there is no checkout at the target path, the worker runs
    nothing but the clone command: no update command is started in a
    directory that does not exist. *)
Theorem fresh_clone_runs_only_clone env repo dest_dir use_ssh shallow mirror
    retries name url st :
  well_formed repo use_ssh name url ->
  path_exists env (target_of dest_dir name mirror) = false ->
  exists k : nat,
    Z.of_nat k <= Z.max 0 (retries + 1)
    /\ git_calls_of (trace (clone_one env repo dest_dir use_ssh shallow mirror
                              retries st).2)
       = git_calls_of (trace st)
         ++ replicate k (clone_argv shallow mirror url
                           (target_of dest_dir name mirror), None).
Proof.
  intros Hwf Hex. rewrite (clone_one_unfold _ _ _ _ _ _ _ _ _ _ Hwf).
  unfold update_existing. rewrite Hex. unfold ret.
  destruct (clone_loop_effects env retries _ _ name
              (mapM_clone_cmd shallow mirror url (target_of dest_dir name mirror))
              (clone_fuel retries) 0 5 st)
    as (k & j & Hk & _ & _ & Hg & _).
  exists k. split; [lia|exact Hg].
Qed.

Lemma fresh_clone_runs_only_clone_witness :
  git_calls_of
    (trace (clone_one (scripted false [Exit 1; Exit 0]) (demo_repo "apt" false)
              "/w/electronicarts" false true false 2 st0).2)
  = replicate 2
      (["git"; "clone"; "--depth"; "1"; "--no-single-branch";
        "https://github.com/electronicarts/apt.git"; "/w/electronicarts/apt"],
       None).
Proof.
  destruct (fresh_clone_runs_only_clone
              (scripted false [Exit 1; Exit 0]) (demo_repo "apt" false)
              "/w/electronicarts" false true false 2 "apt"
              "https://github.com/electronicarts/apt.git" st0)
    as (k & _ & Hg).
  - split; reflexivity.
  - reflexivity.
  - reflexivity.
Defined.

(** [X3]: an outcome is backed by what [git] did.  [cloned] is returned
    only after a clone invocation that exited with 0; [updated] only when
    the checkout was there and the first update command exited with 0;
    [failed] only after every one of the [retries + 1] clone attempts
    exited with a nonzero status. *)
Theorem outcome_reflects_git env repo dest_dir use_ssh shallow mirror retries
    name url st out st' :
  let target := target_of dest_dir name mirror in
  let argv := clone_argv shallow mirror url target in
  well_formed repo use_ssh name url ->
  clone_one env repo dest_dir use_ssh shallow mirror retries st = (Val out, st') ->
  (out = render (Cloned name) -> exists k, git env k argv None = Exit 0)
  /\ (out = render (Updated name) ->
      path_exists env target = true
      /\ git env (calls st) (update_argv mirror) (Some target) = Exit 0)
  /\ (out = render (Failed name) ->
      exists first : nat,
        forall i : nat, Z.of_nat i <= retries ->
          exists c, c <> 0 /\ git env (first + i) argv None = Exit c).
Proof.
  intros target argv Hwf. rewrite (clone_one_unfold _ _ _ _ _ _ _ _ _ _ Hwf).
  fold target.
  destruct (update_existing_effects env mirror name target st)
    as (r & st1 & l & Hupd & _ & _ & _ & _ & Hsome).
  rewrite Hupd. destruct r as [out0|].
  - intros [= <- <-]. destruct (Hsome out0 eq_refl) as (-> & Hex & Hgit).
    split; [|split].
    + intros H. symmetry in H. now apply render_cloned_not_updated in H.
    + intros _. split; assumption.
    + intros H. now apply render_updated_not_failed in H.
  - intros Hrun.
    destruct (clone_loop_sound env retries _ argv name
                (mapM_clone_cmd shallow mirror url target)
                _ _ _ _ _ _ Hrun) as [[-> Hzero] | [-> Hall]].
    + split; [intros _; exact Hzero|]. split.
      * intros H. now apply render_cloned_not_updated in H.
      * intros H. now apply render_cloned_not_failed in H.
    + split; [|split].
      * intros H. symmetry in H. now apply render_cloned_not_failed in H.
      * intros H. symmetry in H. now apply render_updated_not_failed in H.
      * intros _. exists (calls st1). intros i Hi. apply Hall. lia.
Qed.

Lemma outcome_reflects_git_witness :
  exists k,
    git (scripted false [Exit 1; Exit 0]) k
      (clone_argv true false "https://github.com/electronicarts/apt.git"
         (target_of "/w/electronicarts" "apt" false)) None = Exit 0.
Proof.
  destruct (outcome_reflects_git
              (scripted false [Exit 1; Exit 0]) (demo_repo "apt" false)
              "/w/electronicarts" false true false 2 "apt"
              "https://github.com/electronicarts/apt.git" st0 "cloned: apt"
              (clone_one (scripted false [Exit 1; Exit 0]) (demo_repo "apt" false)
                 "/w/electronicarts" false true false 2 st0).2)
    as (Hcloned & _).
  - split; reflexivity.
  - reflexivity.
  - exact (Hcloned eq_refl).
Defined.

(** [X4]: an exception raised by an update command (the first one, or
    the pull after a fetch that exited with 0) is swallowed: the worker
    carries on with the clone command and its retry loop, as after an
    update that exited nonzero. *)
Theorem update_exception_falls_through env repo dest_dir use_ssh shallow mirror
    retries name url st e :
  let target := target_of dest_dir name mirror in
  well_formed repo use_ssh name url ->
  path_exists env target = true ->
  git env (calls st) (update_argv mirror) (Some target) = Raises e
  \/ (mirror = false
      /\ git env (calls st) (update_argv false) (Some target) = Exit 0
      /\ git env (S (calls st)) ["git"; "pull"; "--ff-only"] (Some target)
         = Raises e) ->
  exists st1 (l : list (list string)),
    clone_one env repo dest_dir use_ssh shallow mirror retries st
    = clone_loop env retries (clone_fuel retries)
        (clone_cmd shallow mirror (PStr url) target) name 0 5 st1
    /\ l <> []
    /\ calls st1 = (calls st + length l)%nat
    /\ trace st1 = trace st ++ ((fun a => EvGit a (Some target)) <$> l).
Proof.
  intros target Hwf Hex Hraise.
  rewrite (clone_one_unfold _ _ _ _ _ _ _ _ _ _ Hwf). fold target.
  unfold update_existing. rewrite Hex.
  unfold catch, update_attempt, bind, ret.
  destruct Hraise as [Hfirst | (-> & Hfetch & Hpull)].
  - exists (mkSt (S (calls st))
              (trace st ++ [EvGit (update_argv mirror) (Some target)])),
      [update_argv mirror].
    unfold update_argv in *. destruct mirror;
      rewrite (run_git_cmd_raises env _ _ _ _ _ (mapM_strs _) Hfirst);
      (split; [reflexivity|]); (split; [discriminate|]);
      (split; [cbn; lia|reflexivity]).
  - unfold update_argv in Hfetch.
    rewrite (run_git_cmd_exit env _ _ _ _ _ (mapM_strs _) Hfetch).
    change (0 =? 0) with true. cbv beta iota.
    rewrite (run_git_cmd_raises env _ _ _ (mkSt (S (calls st)) _) _
               (mapM_strs _) Hpull).
    eexists _, [_; _]. split; [reflexivity|]. split; [discriminate|].
    cbn. rewrite <- app_assoc. split; [lia|reflexivity].
Qed.

Lemma update_exception_falls_through_witness :
  exists st1 (l : list (list string)),
    clone_one (scripted true [Raises no_git; Exit 0]) (demo_repo "apt" false)
      "/w/electronicarts" false true true 2 st0
    = clone_loop (scripted true [Raises no_git; Exit 0]) 2 (clone_fuel 2)
        (clone_cmd true true (PStr "https://github.com/electronicarts/apt.git")
           "/w/electronicarts/apt.git") "apt" 0 5 st1
    /\ l <> []
    /\ calls st1 = (0 + length l)%nat
    /\ trace st1
       = [] ++ ((fun a => EvGit a (Some "/w/electronicarts/apt.git")) <$> l).
Proof.
  apply (update_exception_falls_through
           (scripted true [Raises no_git; Exit 0]) (demo_repo "apt" false)
           "/w/electronicarts" false true true 2 "apt"
           "https://github.com/electronicarts/apt.git" st0 no_git).
  - split; reflexivity.
  - reflexivity.
  - left. reflexivity.
Defined.

(** [X5]: in mirror mode, with the mirror on disk, a remote update that
    exits with 0 is all the worker runs: the outcome is [updated] and no
    clone command is started. *)
Theorem mirror_update_is_enough env repo dest_dir use_ssh shallow retries
    name url st :
  let target := target_of dest_dir name true in
  well_formed repo use_ssh name url ->
  path_exists env target = true ->
  git env (calls st) ["git"; "remote"; "update"; "--prune"] (Some target) = Exit 0 ->
  clone_one env repo dest_dir use_ssh shallow true retries st
  = (Val (render (Updated name)),
     mkSt (S (calls st))
          (trace st ++ [EvGit ["git"; "remote"; "update"; "--prune"] (Some target)]))
  /\ target = path_join dest_dir (name +:+ ".git").
Proof.
  intros target Hwf Hex Hgit. split; [|reflexivity].
  rewrite (clone_one_unfold _ _ _ _ _ _ _ _ _ _ Hwf). fold target.
  unfold update_existing. rewrite Hex.
  unfold catch, update_attempt, bind.
  rewrite (run_git_cmd_exit env _ _ _ _ _ (mapM_strs _) Hgit). reflexivity.
Qed.

Lemma mirror_update_is_enough_witness :
  clone_one (scripted true [Exit 0]) (demo_repo "apt" false)
    "/w/electronicarts" false false true 2 st0
  = (Val "updated: apt",
     mkSt 1 [EvGit ["git"; "remote"; "update"; "--prune"]
               (Some "/w/electronicarts/apt.git")]).
Proof.
  destruct (mirror_update_is_enough
              (scripted true [Exit 0]) (demo_repo "apt" false)
              "/w/electronicarts" false false 2 "apt"
              "https://github.com/electronicarts/apt.git" st0) as [Hrun _].
  - split; reflexivity.
  - reflexivity.
  - reflexivity.
  - exact Hrun.
Defined.

(** [X6]: with a negative [retries] the loop body never runs: without a
    checkout on disk the worker reports [failed] and has not started
    [git] once. *)
Theorem negative_retries_never_clone env repo dest_dir use_ssh shallow mirror
    retries name url st :
  well_formed repo use_ssh name url ->
  path_exists env (target_of dest_dir name mirror) = false ->
  retries < 0 ->
  clone_one env repo dest_dir use_ssh shallow mirror retries st
  = (Val (render (Failed name)), st).
Proof.
  intros Hwf Hex Hneg. rewrite (clone_one_unfold _ _ _ _ _ _ _ _ _ _ Hwf).
  unfold update_existing. rewrite Hex. unfold ret, clone_fuel.
  cbn [clone_loop]. replace (0 <=? retries) with false by lia. reflexivity.
Qed.

Lemma negative_retries_never_clone_witness :
  clone_one (always_exit 0) (demo_repo "apt" false) "/w/electronicarts"
    false true false (-1) st0
  = (Val "failed: apt", st0).
Proof.
  apply (negative_retries_never_clone (always_exit 0) (demo_repo "apt" false)
           "/w/electronicarts" false true false (-1) "apt"
           "https://github.com/electronicarts/apt.git" st0).
  - split; reflexivity.
  - reflexivity.
  - lia.
Defined.

(** [X7]: the clone command is [git clone], the options, the URL and the
    target.  [--mirror] is there exactly in mirror mode, [--depth] exactly
    for a shallow clone that is not a mirror, never both; with the flags
    as [main] derives them, [--mirror] wins over [--full], [--full] means
    no option and the default is depth 1 with all branches. *)
Theorem clone_command_options shallow mirror full url target :
  clone_cmd shallow mirror url target
  = strs (["git"; "clone"] ++ clone_options shallow mirror) ++ [url; PStr target]
  /\ (In "--mirror" (clone_options shallow mirror) <-> mirror = true)
  /\ (In "--depth" (clone_options shallow mirror)
      <-> shallow = true /\ mirror = false)
  /\ ~ (In "--mirror" (clone_options shallow mirror)
        /\ In "--depth" (clone_options shallow mirror))
  /\ clone_options (negb full && negb mirror) mirror
     = if mirror then ["--mirror"]
       else if full then []
       else ["--depth"; "1"; "--no-single-branch"].
Proof.
  split; [destruct shallow, mirror; reflexivity|].
  split; [|split; [|split]].
  - destruct shallow, mirror; cbn; intuition discriminate.
  - destruct shallow, mirror; cbn; intuition discriminate.
  - destruct shallow, mirror; cbn; intuition discriminate.
  - destruct full, mirror; reflexivity.
Qed.

(** ** More on the orchestrator: descriptors and the progress bar *)

Lemma select_lookup_name r : select r !! "name" = Some (dict_get r "name").
Proof. reflexivity. Qed.

Lemma select_lookup_url r use_ssh :
  select r !! url_key use_ssh = Some (dict_get r (url_key use_ssh)).
Proof. destruct use_ssh; reflexivity. Qed.

(** [X8]: a listed entry without a name that is a string gives a task
    that raises before anything is run: no [git] is started and the
    progress bar is not advanced; the orchestrator records it as a
    [failed: ] entry. *)
Theorem entry_without_name_fails_before_git env dest_dir use_ssh shallow mirror
    (r : gmap string PyVal) st :
  (forall n, r !! "name" <> Some (PStr n)) ->
  exists e,
    task env dest_dir use_ssh shallow mirror (select r) st = (Exn e, st)
    /\ entry_of (task env dest_dir use_ssh shallow mirror (select r) st).1
       = render (Failed (exn_str e)).
Proof.
  intros Hname.
  destruct (clone_one_malformed env (select r) dest_dir use_ssh shallow mirror 2 st)
    as (e & Hrun).
  - right. intros n. rewrite select_lookup_name. unfold dict_get.
    destruct (r !! "name") as [v|] eqn:Hv; cbn; [|discriminate].
    intros [= ->]. exact (Hname n eq_refl).
  - exists e. unfold task, bind. rewrite Hrun. split; reflexivity.
Qed.

Lemma entry_without_name_fails_before_git_witness :
  exists e,
    task (always_exit 0) "/w/electronicarts" false true false
      (select {[ "clone_url" := PStr "https://github.com/electronicarts/x.git" ]}) st0
    = (Exn e, st0)
    /\ entry_of (task (always_exit 0) "/w/electronicarts" false true false
                   (select {[ "clone_url" := PStr "https://github.com/electronicarts/x.git" ]})
                   st0).1
       = render (Failed (exn_str e)).
Proof.
  apply (entry_without_name_fails_before_git (always_exit 0) "/w/electronicarts"
           false true false
           {[ "clone_url" := PStr "https://github.com/electronicarts/x.git" ]} st0).
  intros n H. vm_compute in H. discriminate H.
Defined.

(** [X9]: [main] hands the worker a cut-down copy of each listed entry;
    for an entry that has a name and the URL in use, the worker does on
    the copy exactly what it would do on the entry itself. *)
Theorem select_keeps_what_clone_one_reads env dest_dir use_ssh shallow mirror
    retries (r : gmap string PyVal) name_v url_v st :
  r !! "name" = Some name_v ->
  r !! url_key use_ssh = Some url_v ->
  clone_one env (select r) dest_dir use_ssh shallow mirror retries st
  = clone_one env r dest_dir use_ssh shallow mirror retries st.
Proof.
  intros Hn Hu. unfold clone_one, getitem.
  fold (url_key use_ssh).
  rewrite select_lookup_name, select_lookup_url. unfold dict_get.
  rewrite Hn, Hu. reflexivity.
Qed.

Lemma select_keeps_what_clone_one_reads_witness :
  clone_one (scripted false [Exit 1; Exit 0]) (select (demo_repo "apt" true))
    "/w/electronicarts" true true false 2 st0
  = clone_one (scripted false [Exit 1; Exit 0]) (demo_repo "apt" true)
      "/w/electronicarts" true true false 2 st0.
Proof.
  apply (select_keeps_what_clone_one_reads (scripted false [Exit 1; Exit 0])
           "/w/electronicarts" true true false 2 (demo_repo "apt" true)
           (PStr "apt") (PStr "git@github.com:electronicarts/apt.git") st0);
    reflexivity.
Defined.

(** [X10]: the progress bar is advanced once by a task that returns an
    outcome and not at all by a task that raises: after a run in which
    tasks raised, the bar stays short of the total. *)
Theorem progress_advances_only_on_return env dest_dir use_ssh shallow mirror r st :
  match task env dest_dir use_ssh shallow mirror r st with
  | (Val _, st') => ticks_of (trace st') = S (ticks_of (trace st))
  | (Exn _, st') => ticks_of (trace st') = ticks_of (trace st)
  | (OutOfFuel, _) => False
  end.
Proof.
  unfold task, bind.
  pose proof (clone_one_ends env r dest_dir use_ssh shallow mirror 2 st) as Hend.
  destruct (clone_one_effects env r dest_dir use_ssh shallow mirror 2 st)
    as (g & j & _ & _ & _ & _ & Ht).
  destruct (clone_one env r dest_dir use_ssh shallow mirror 2 st) as [[out|e|] st'];
    cbn [snd] in Ht.
  - unfold emit, ret. cbn [trace]. rewrite ticks_of_app, Ht. cbn. lia.
  - exact Ht.
  - exact Hend.
Qed.

(** ** More on the lister: requests, sleeps and progress *)

Lemma headers_of_app t1 t2 : headers_of (t1 ++ t2) = headers_of t1 ++ headers_of t2.
Proof. apply omap_app. Qed.

Lemma StronglySorted_take_le (l : list Z) :
  StronglySorted Z.le l -> forall k, StronglySorted Z.le (take k l).
Proof.
  induction 1 as [|x l Hs IH Hall]; intros [|k]; cbn; try constructor.
  - apply IH.
  - apply Forall_take. exact Hall.
Qed.

Lemma page_numbers_step answers :
  forall page i a b,
    page_numbers answers page !! i = Some a ->
    page_numbers answers page !! S i = Some b ->
    b = a \/ b = a + 1.
Proof.
  induction answers as [|x answers IH]; intros page i a b; [discriminate|].
  cbn [page_numbers]. destruct i as [|i].
  - cbn. intros [= <-]. destruct answers as [|y answers]; [discriminate|].
    cbn. intros [= <-]. destruct (is_limited x); auto.
  - cbn. apply IH.
Qed.

(** The requests of the loop, whatever the server answers. *)
Lemma fetch_loop_requests lenv token inc answers :
  forall page repos st,
    exists k : nat,
      (k <= length answers)%nat
      /\ calls (fetch_loop lenv token inc answers page repos st).2
         = (calls st + k)%nat
      /\ pages_of (trace (fetch_loop lenv token inc answers page repos st).2)
         = pages_of (trace st) ++ take k (page_numbers answers page)
      /\ headers_of (trace (fetch_loop lenv token inc answers page repos st).2)
         = headers_of (trace st) ++ replicate k (request_headers lenv token).
Proof.
  induction answers as [|a answers IH]; intros page repos st.
  - exists 0%nat. cbn. rewrite !app_nil_r. repeat split; lia.
  - cbn [fetch_loop]. unfold bind at 1. cbv beta iota.
    assert (Hone : forall r : Res (list Entry),
               exists k : nat,
                 (k <= length (a :: answers))%nat
                 /\ calls (r, mkSt (S (calls st))
                                (trace st ++ [EvGet (request_headers lenv token) page])).2
                    = (calls st + k)%nat
                 /\ pages_of (trace (r, mkSt (S (calls st))
                                (trace st ++ [EvGet (request_headers lenv token) page])).2)
                    = pages_of (trace st) ++ take k (page_numbers (a :: answers) page)
                 /\ headers_of (trace (r, mkSt (S (calls st))
                                (trace st ++ [EvGet (request_headers lenv token) page])).2)
                    = headers_of (trace st)
                      ++ replicate k (request_headers lenv token)).
    { intros r. exists 1%nat. cbn [snd calls trace length].
      rewrite pages_of_app, headers_of_app. cbn. repeat split; lia. }
    assert (Hnote : forall (r : Res (list Entry)) notice,
               exists k : nat,
                 (k <= length (a :: answers))%nat
                 /\ calls (r, mkSt (S (calls st))
                                ((trace st ++ [EvGet (request_headers lenv token) page])
                                 ++ [EvWrite notice])).2
                    = (calls st + k)%nat
                 /\ pages_of (trace (r, mkSt (S (calls st))
                                ((trace st ++ [EvGet (request_headers lenv token) page])
                                 ++ [EvWrite notice])).2)
                    = pages_of (trace st) ++ take k (page_numbers (a :: answers) page)
                 /\ headers_of (trace (r, mkSt (S (calls st))
                                ((trace st ++ [EvGet (request_headers lenv token) page])
                                 ++ [EvWrite notice])).2)
                    = headers_of (trace st)
                      ++ replicate k (request_headers lenv token)).
    { intros r notice. exists 1%nat. cbn [snd calls trace length].
      rewrite !pages_of_app, !headers_of_app. cbn. rewrite !app_nil_r.
      repeat split; lia. }
    assert (Hmore : forall p' rs t',
               pages_of t' = [] -> headers_of t' = [] ->
               p' = (if is_limited a then page else page + 1) ->
               exists k : nat,
                 (k <= length (a :: answers))%nat
                 /\ calls (fetch_loop lenv token inc answers p' rs
                             (mkSt (S (calls st))
                                ((trace st ++ [EvGet (request_headers lenv token) page])
                                 ++ t'))).2
                    = (calls st + k)%nat
                 /\ pages_of (trace (fetch_loop lenv token inc answers p' rs
                             (mkSt (S (calls st))
                                ((trace st ++ [EvGet (request_headers lenv token) page])
                                 ++ t'))).2)
                    = pages_of (trace st) ++ take k (page_numbers (a :: answers) page)
                 /\ headers_of (trace (fetch_loop lenv token inc answers p' rs
                             (mkSt (S (calls st))
                                ((trace st ++ [EvGet (request_headers lenv token) page])
                                 ++ t'))).2)
                    = headers_of (trace st)
                      ++ replicate k (request_headers lenv token)).
    { intros p' rs t' Hp Hh ->.
      match goal with
      | |- context [fetch_loop lenv token inc answers ?p ?r ?s] =>
          destruct (IH p r s) as (k & Hk & Hc & Hpg & Hhd)
      end.
      exists (S k). rewrite Hc, Hpg, Hhd. cbn [calls trace length].
      rewrite !pages_of_app, !headers_of_app, Hp, Hh. cbn.
      rewrite !app_nil_r, <- !app_assoc. cbn. repeat split; lia. }
    destruct a as [resp|e]; [|apply Hone].
    destruct (rate_limited resp) eqn:Hrl.
    + unfold bind, py_sleep, emit, throw. cbn [calls trace].
      destruct (sleep lenv _); [apply Hnote|].
      cbn [calls trace]. rewrite <- app_assoc.
      apply (Hmore page repos [_; _]); [reflexivity|reflexivity|].
      cbn. now rewrite Hrl.
    + unfold bind, raise_for_status. destruct (http_error resp); [apply Hone|].
      unfold ret, lift. cbv beta iota.
      destruct (json resp) as [[|r data]| |]; try apply Hone.
      destruct (keep_page inc (r :: data) repos) as [out|e|]; try apply Hone.
      unfold emit. cbn [calls trace].
      apply (Hmore (page + 1) _ [_]); [reflexivity|reflexivity|].
      cbn. now rewrite Hrl.
Qed.

(** [X11]: whatever the server answers (pages, rate limits, errors), the
    page numbers the lister asks for begin with the first page and go on
    without ever going back or skipping a page: each request asks for the
    page of the request before it or for the next one. *)
Theorem pages_never_skip_or_go_back lenv token inc answers st :
  exists k : nat,
    (k <= length answers)%nat
    /\ pages_of (trace (fetch_all_repos lenv token inc answers st).2)
       = pages_of (trace st) ++ take k (page_numbers answers 1)
    /\ StronglySorted Z.le (take k (page_numbers answers 1))
    /\ (forall p, hd_error (take k (page_numbers answers 1)) = Some p -> p = 1)
    /\ (forall i a b,
          take k (page_numbers answers 1) !! i = Some a ->
          take k (page_numbers answers 1) !! S i = Some b ->
          b = a \/ b = a + 1).
Proof.
  unfold fetch_all_repos.
  destruct (fetch_loop_requests lenv token inc answers 1 [] st)
    as (k & Hk & _ & Hpages & _).
  exists k. split; [exact Hk|]. split; [exact Hpages|]. split; [|split].
  - apply StronglySorted_take_le, page_numbers_sorted.
  - destruct answers as [|a answers], k as [|k]; cbn; try discriminate.
    now intros p [= <-].
  - intros i a b Ha Hb.
    apply lookup_take_Some in Ha as [Ha _]. apply lookup_take_Some in Hb as [Hb _].
    eapply page_numbers_step; eassumption.
Qed.

(** [X14]: every request of a listing carries the same headers: the
    [Accept] header always, and a bearer [Authorization] made of what
    [str.strip] gives for the token exactly when a non-empty token was
    given. *)
Theorem every_request_carries_the_headers lenv token inc answers st :
  request_headers lenv token !! "Accept" = Some "application/vnd.github+json"
  /\ request_headers lenv token !! "Authorization"
     = match token with
       | Some t => if String.eqb t EmptyString then None
                   else Some ("Bearer " +:+ strip_of lenv t)
       | None => None
       end
  /\ (forall k v, request_headers lenv token !! k = Some v ->
                  k = "Accept" \/ k = "Authorization")
  /\ exists k : nat,
       headers_of (trace (fetch_all_repos lenv token inc answers st).2)
       = headers_of (trace st) ++ replicate k (request_headers lenv token)
       /\ calls (fetch_all_repos lenv token inc answers st).2 = (calls st + k)%nat.
Proof.
  split; [|split; [|split]].
  - unfold request_headers. destruct token as [t|]; [|reflexivity].
    destruct (String.eqb t EmptyString); [reflexivity|].
    rewrite lookup_insert_ne by discriminate. reflexivity.
  - unfold request_headers. destruct token as [t|]; [|reflexivity].
    destruct (String.eqb t EmptyString); [reflexivity|].
    apply lookup_insert_eq.
  - intros k v. unfold request_headers.
    assert (Hacc : forall (x : string),
               ({[ "Accept" := "application/vnd.github+json" ]}
                  : gmap string string) !! k = Some x -> k = "Accept").
    { intros x Hx. apply lookup_singleton_Some in Hx. symmetry. apply Hx. }
    destruct token as [t|]; [|intros H; left; exact (Hacc _ H)].
    destruct (String.eqb t EmptyString); [intros H; left; exact (Hacc _ H)|].
    destruct (decide (k = "Authorization")) as [->|Hk]; [now right|].
    rewrite lookup_insert_ne by congruence. intros H; left; exact (Hacc _ H).
  - unfold fetch_all_repos.
    destruct (fetch_loop_requests lenv token inc answers 1 [] st)
      as (k & _ & Hc & _ & Hh).
    exists k. split; assumption.
Qed.

Lemma sleepable_cons lenv first a pre :
  (forall resp, a = Got resp -> rate_limited resp = true ->
                sleep lenv (wait_seconds lenv resp (clock lenv first)) = None) ->
  sleepable lenv (S first) pre ->
  sleepable lenv first (a :: pre).
Proof.
  intros Ha Hpre [|i] resp Hi Hrl.
  - cbn in Hi. injection Hi as ->. rewrite Nat.add_0_r. now apply Ha.
  - replace (first + S i)%nat with (S first + i)%nat by lia.
    exact (Hpre i resp Hi Hrl).
Qed.

Lemma passable_weaken inc a :
  passable inc a ->
  is_limited a = true \/ exists d, page_data a = Some d /\ d <> [].
Proof. intros [H|(d & Hd & Hne & _)]; [now left|right; eauto]. Qed.

(** A listing that returns has met an empty page, and before it only
    rate-limit answers that it slept out and non-empty pages that it
    went through. *)
Lemma fetch_loop_returns lenv token inc answers :
  forall page repos st out st',
    fetch_loop lenv token inc answers page repos st = (Val out, st') ->
    exists pre e rest,
      answers = pre ++ e :: rest
      /\ page_data e = Some []
      /\ Forall (passable inc) pre
      /\ sleepable lenv (S (calls st)) pre.
Proof.
  induction answers as [|a answers IH]; intros page repos st out st';
    [discriminate|].
  cbn [fetch_loop]. unfold bind at 1. cbv beta iota.
  destruct a as [resp|e]; [|discriminate].
  destruct (rate_limited resp) eqn:Hrl.
  - unfold bind, py_sleep, emit, throw. cbn [calls trace].
    destruct (sleep lenv _) eqn:Hs; [discriminate|]. cbn [calls trace].
    intros Hrun.
    destruct (IH _ _ _ _ _ Hrun) as (pre & e & rest & -> & He & Hpre & Hsl).
    exists (Got resp :: pre), e, rest. split; [reflexivity|]. split; [exact He|].
    split; [constructor; [left; exact Hrl|exact Hpre]|].
    apply sleepable_cons; [|exact Hsl].
    intros resp' [= <-] _. exact Hs.
  - unfold bind, raise_for_status. destruct (http_error resp) eqn:Herr;
      [discriminate|]. unfold ret, lift. cbv beta iota.
    destruct (json resp) as [[|r data]| |] eqn:Hj; try discriminate.
    + intros _. exists [], (Got resp), answers. split; [reflexivity|].
      split; [|split; [constructor|]].
      * cbn. now rewrite Hrl, Herr, Hj.
      * intros i resp' Hi. discriminate Hi.
    + destruct (keep_page inc (r :: data) repos) as [kept_repos|e|] eqn:Hk;
        try discriminate.
      unfold emit. cbn [calls trace]. intros Hrun.
      destruct (IH _ _ _ _ _ Hrun) as (pre & e & rest & -> & He & Hpre & Hsl).
      exists (Got resp :: pre), e, rest. split; [reflexivity|]. split; [exact He|].
      split.
      * constructor; [|exact Hpre]. right. exists (r :: data).
        split; [cbn; now rewrite Hrl, Herr, Hj|]. split; [discriminate|].
        apply (keep_page_returns _ _ _ _ Hk).
      * apply sleepable_cons; [|exact Hsl].
        intros resp' [= <-] Hrl'. congruence.
Qed.

(** [X12]: the listing returns a list only by reaching an empty page.
    If [fetch_all_repos] returns, the answers it consumed were rate-limit
    answers and non-empty pages followed by an empty page, and the list
    is made of the kept entries of those pages, page after page; a
    server that never sends an empty page never gets a list out of it.
    The rate-limit answers were slept out, and without
    [include_archived] the pages held objects only. *)
Theorem listing_returns_only_at_empty_page lenv token inc answers st out st' :
  fetch_all_repos lenv token inc answers st = (Val out, st') ->
  exists pre e rest,
    answers = pre ++ e :: rest
    /\ page_data e = Some []
    /\ Forall (fun a => is_limited a = true
                        \/ exists d, page_data a = Some d /\ d <> []) pre
    /\ out = concat (kept inc <$> omap page_data pre)
    /\ calls st' = (calls st + S (length pre))%nat
    /\ Forall (passable inc) pre
    /\ sleepable lenv (S (calls st)) pre.
Proof.
  unfold fetch_all_repos. intros Hrun.
  destruct (fetch_loop_returns lenv token inc answers _ _ _ _ _ Hrun)
    as (pre & e & rest & -> & He & Hpre & Hsl).
  exists pre, e, rest. split; [reflexivity|]. split; [exact He|].
  split; [eapply Forall_impl; [exact Hpre|apply passable_weaken]|].
  destruct (fetch_loop_pages lenv token inc pre e rest Hpre He 1 [] st Hsl)
    as (st2 & Hrun2 & Hpages).
  rewrite Hrun in Hrun2. injection Hrun2 as -> ->. split; [reflexivity|].
  split; [|split; assumption].
  destruct (fetch_loop_requests lenv token inc (pre ++ e :: rest) 1 [] st)
    as (k & Hk & Hc & Hpg & _).
  rewrite Hrun in Hc, Hpg. cbn [snd] in Hc, Hpg. rewrite Hc. f_equal.
  rewrite Hpages in Hpg. apply app_inv_head in Hpg.
  apply (f_equal length) in Hpg. rewrite length_take in Hpg.
  assert (Hlen : forall l p, length (page_numbers l p) = length l).
  { induction l as [|x l IHl]; intros p; cbn; [reflexivity|now rewrite IHl]. }
  rewrite !Hlen, !length_app in Hpg. cbn [length] in Hpg.
  rewrite length_app in Hk. cbn [length] in Hk. lia.
Qed.

Lemma listing_returns_only_at_empty_page_witness :
  exists pre e rest,
    [limited None; ok_page [demo_repo "apt" false]; ok_page []; server_error]
    = pre ++ e :: rest
    /\ page_data e = Some []
    /\ Forall (fun a => is_limited a = true
                        \/ exists d, page_data a = Some d /\ d <> []) pre
    /\ [EDict (demo_repo "apt" false)] = concat (kept false <$> omap page_data pre)
    /\ 3%nat = (0 + S (length pre))%nat
    /\ Forall (passable false) pre
    /\ sleepable demo_lister 1 pre.
Proof.
  apply (listing_returns_only_at_empty_page demo_lister None false
           [limited None; ok_page [demo_repo "apt" false]; ok_page []; server_error]
           st0 [EDict (demo_repo "apt" false)]
           (mkSt 3 (trace (fetch_all_repos demo_lister None false
                             [limited None; ok_page [demo_repo "apt" false];
                              ok_page []; server_error] st0).2))).
  reflexivity.
Defined.

(** The sleeps, the ticks and the requests of the loop against
    rate-limit answers and non-empty pages up to the first empty page. *)
Lemma fetch_loop_pages_effects lenv token inc pre e rest :
  Forall (passable inc) pre ->
  page_data e = Some [] ->
  forall page repos st,
    sleepable lenv (S (calls st)) pre ->
    calls (fetch_loop lenv token inc (pre ++ e :: rest) page repos st).2
    = (calls st + S (length pre))%nat
    /\ ticks_of (trace (fetch_loop lenv token inc (pre ++ e :: rest) page repos st).2)
       = (ticks_of (trace st) + length (omap page_data pre))%nat
    /\ exists ws,
         sleeps_of (trace (fetch_loop lenv token inc (pre ++ e :: rest) page repos st).2)
         = sleeps_of (trace st) ++ ws
         /\ length ws = length (List.filter is_limited pre)
         /\ Forall (Z.le 1) ws
         /\ Forall (fun s => sleep lenv s = None) ws.
Proof.
  intros Hpre He. induction Hpre as [|a pre Ha _ IH]; intros page repos st Hsl.
  - cbn [app]. rewrite (fetch_loop_empty _ _ _ _ _ _ _ _ He). cbn [snd calls trace].
    rewrite ticks_of_app, sleeps_of_app. cbn.
    split; [lia|]. split; [lia|]. exists []. rewrite app_nil_r.
    repeat split; constructor.
  - cbn [app]. rewrite omap_page_data_cons.
    destruct Ha as [Hl|(d & Hd & Hne & Hr)].
    + destruct a as [resp|x]; [|discriminate Hl]. cbn in Hl.
      pose proof (sleepable_head _ _ _ _ Hsl Hl) as Hs.
      rewrite (fetch_loop_limited _ _ _ _ _ _ _ _ Hl Hs).
      match goal with
      | |- context [fetch_loop lenv token inc _ ?p ?r ?s] =>
          destruct (IH p r s) as (Hc & Ht & ws & Hsw & Hlen & Hall & Hok)
      end.
      { cbn [calls]. eapply sleepable_tail. exact Hsl. }
      rewrite Hc, Ht, Hsw. cbn [calls trace].
      rewrite ticks_of_app, sleeps_of_app.
      cbn [page_data List.filter is_limited]. rewrite Hl. cbn.
      split; [lia|]. split; [lia|].
      exists (wait_seconds lenv resp (clock lenv (S (calls st))) :: ws).
      rewrite <- app_assoc. split; [reflexivity|]. split; [cbn; lia|].
      split; constructor; try assumption. apply wait_seconds_cases.
    + rewrite (fetch_loop_page _ _ _ _ _ _ _ _ _ Hd Hne Hr).
      pose proof (page_not_limited _ _ Hd) as Hl.
      match goal with
      | |- context [fetch_loop lenv token inc _ ?p ?r ?s] =>
          destruct (IH p r s) as (Hc & Ht & ws & Hsw & Hlen & Hall & Hok)
      end.
      { cbn [calls]. eapply sleepable_tail. exact Hsl. }
      rewrite Hc, Ht, Hsw. cbn [calls trace].
      rewrite ticks_of_app, sleeps_of_app.
      rewrite Hd. cbn [List.filter]. rewrite Hl. cbn.
      split; [lia|]. split; [lia|].
      exists ws. rewrite app_nil_r. split; [reflexivity|]. repeat split; assumption.
Qed.

(** [X13]: in a listing that reaches its empty page through rate-limit
    answers that [time.sleep] takes and pages that can be gone through,
    one request is made per answer up to and including the empty page
    and none after it; the lister sleeps once per rate-limit answer, at
    least one second each time, and at no other moment; the progress bar
    advances once per non-empty page.  A sleep that [time.sleep] refuses
    ends the listing instead, at its first rate-limit answer of that
    kind. *)
Theorem listing_sleeps_and_ticks lenv token inc :
  (forall pre e rest st,
     Forall (passable inc) pre ->
     sleepable lenv (S (calls st)) pre ->
     page_data e = Some [] ->
     calls (fetch_all_repos lenv token inc (pre ++ e :: rest) st).2
     = (calls st + S (length pre))%nat
     /\ ticks_of (trace (fetch_all_repos lenv token inc (pre ++ e :: rest) st).2)
        = (ticks_of (trace st) + length (omap page_data pre))%nat
     /\ exists ws,
          sleeps_of (trace (fetch_all_repos lenv token inc (pre ++ e :: rest) st).2)
          = sleeps_of (trace st) ++ ws
          /\ length ws = length (List.filter is_limited pre)
          /\ Forall (Z.le 1) ws
          /\ Forall (fun s => sleep lenv s = None) ws)
  /\ (forall resp rest st x,
        rate_limited resp = true ->
        sleep lenv (wait_seconds lenv resp (clock lenv (S (calls st)))) = Some x ->
        (fetch_all_repos lenv token inc (Got resp :: rest) st).1 = Exn x
        /\ sleeps_of (trace (fetch_all_repos lenv token inc (Got resp :: rest) st).2)
           = sleeps_of (trace st)
        /\ calls (fetch_all_repos lenv token inc (Got resp :: rest) st).2
           = S (calls st)).
Proof.
  split.
  - intros pre e rest st Hpre Hsl He. unfold fetch_all_repos.
    apply fetch_loop_pages_effects; assumption.
  - intros resp rest st x Hrl Hs. unfold fetch_all_repos.
    rewrite (fetch_loop_sleep_raises lenv token inc resp rest 1 [] st x Hrl Hs).
    cbn [fst snd calls trace]. rewrite sleeps_of_app. cbn.
    rewrite app_nil_r. repeat split; reflexivity.
Qed.

Lemma listing_sleeps_and_ticks_witness :
  let st' := (fetch_all_repos demo_lister None false
                ([limited (Some "1700000030"); ok_page [demo_repo "apt" false]]
                 ++ ok_page [] :: [server_error]) st0).2 in
  calls st' = 3%nat /\ ticks_of (trace st') = 1%nat
  /\ exists ws, sleeps_of (trace st') = ws /\ length ws = 1%nat /\ Forall (Z.le 1) ws
                /\ Forall (fun s => sleep demo_lister s = None) ws.
Proof.
  destruct (listing_sleeps_and_ticks demo_lister None false) as (Hruns & _).
  apply (Hruns [limited (Some "1700000030"); ok_page [demo_repo "apt" false]]
           (ok_page []) [server_error] st0).
  - apply Forall_cons_2; [left; reflexivity|].
    apply Forall_cons_2;
      [right; eexists; split; [reflexivity|];
       split; [discriminate|right; repeat constructor]|].
    apply Forall_nil_2.
  - sleepable_by_cases.
  - reflexivity.
Defined.

(** ** More on [main]: empty listings, the exit status, the accounting *)

Lemma archived_pages_keep_nothing inc pre :
  Forall (fun a => is_limited a = true \/ (inc = false /\ all_archived a)) pre ->
  concat (kept inc <$> omap page_data pre) = []
  /\ Forall (passable inc) pre.
Proof.
  induction 1 as [|a pre Ha _ [IH1 IH2]]; [split; [reflexivity|constructor]|].
  rewrite omap_page_data_cons.
  destruct Ha as [Hl|(-> & d & Hd & Hne & Hall)].
  - split; [|constructor; [now left|exact IH2]].
    now rewrite (limited_no_page _ Hl).
  - split.
    + rewrite Hd. cbn [fmap list_fmap concat]. rewrite IH1, app_nil_r.
      unfold kept. clear Hd Hne. induction Hall as [|r d [_ Hr] _ IHd]; [reflexivity|].
      cbn. rewrite Hr. exact IHd.
    + constructor; [|exact IH2]. right. exists d.
      split; [exact Hd|]. split; [exact Hne|]. right.
      eapply Forall_impl; [exact Hall|]. cbn. intros r Hr. apply Hr.
Qed.

(** [X15]: when the organization has no repository, with or without
    [--include-archived], or when every repository on every page is
    archived and [--include-archived] was not given, [main] prints that
    nothing was found and returns with status 0: no worker is started
    and no log file is written. *)
Theorem all_archived_means_nothing_to_do args w pre e rest :
  makedirs w (abspath w (Args.dest args)) = None ->
  answers w = pre ++ e :: rest ->
  Forall (fun a => is_limited a = true
                   \/ (Args.include_archived args = false /\ all_archived a)) pre ->
  sleepable (lister w) 1 pre ->
  page_data e = Some [] ->
  exists t,
    main args w
    = Val (mkRun 0
             ["No repositories found. (Maybe the org is empty or your token lacks access?)"]
             [] t [] None None None).
Proof.
  intros Hmk Hans Hpre Hsl He.
  destruct (archived_pages_keep_nothing _ pre Hpre) as [Hnil Hshape].
  destruct (fetch_loop_pages (lister w) (Args.token args)
              (Args.include_archived args) pre e rest Hshape He 1 [] st0 Hsl)
    as (st' & Hrun & _).
  rewrite Hnil in Hrun. exists (trace st').
  unfold main, fetch_all_repos. rewrite Hmk, Hans, Hrun. reflexivity.
Qed.

Lemma all_archived_means_nothing_to_do_witness :
  (exists t,
     main (demo_args 4)
       (small_world
          [ok_page [demo_repo "origin" true; demo_repo "old" true]; ok_page []]
          (always_exit 0) [])
     = Val (mkRun 0
              ["No repositories found. (Maybe the org is empty or your token lacks access?)"]
              [] t [] None None None))
  /\ (exists t,
        main (Args.mk "electronicarts" None false true 4 false false)
          (small_world [limited None; ok_page []] (always_exit 0) [])
        = Val (mkRun 0
                 ["No repositories found. (Maybe the org is empty or your token lacks access?)"]
                 [] t [] None None None)).
Proof.
  split.
  - apply (all_archived_means_nothing_to_do (demo_args 4)
             (small_world
                [ok_page [demo_repo "origin" true; demo_repo "old" true]; ok_page []]
                (always_exit 0) [])
             [ok_page [demo_repo "origin" true; demo_repo "old" true]]
             (ok_page []) []).
    + reflexivity.
    + reflexivity.
    + apply Forall_cons_2; [|apply Forall_nil_2]. right. split; [reflexivity|].
      exists [EDict (demo_repo "origin" true); EDict (demo_repo "old" true)].
      split; [reflexivity|]. split; [discriminate|].
      apply Forall_cons_2; [split; reflexivity|].
      apply Forall_cons_2; [split; reflexivity|apply Forall_nil_2].
    + sleepable_by_cases.
    + reflexivity.
  - apply (all_archived_means_nothing_to_do
             (Args.mk "electronicarts" None false true 4 false false)
             (small_world [limited None; ok_page []] (always_exit 0) [])
             [limited None] (ok_page []) []).
    + reflexivity.
    + reflexivity.
    + apply Forall_cons_2; [left; reflexivity|apply Forall_nil_2].
    + sleepable_by_cases.
    + reflexivity.
Defined.

(** The ways a run can go: the directory cannot be made; the listing
    does not end, raises, or is empty; a listed element is not an
    object; or the pool runs and the log is written or not. *)
Lemma main_cases args w :
  (exists e,
     makedirs w (abspath w (Args.dest args)) = Some e
     /\ main args w = Val (mkRun 1 [] [] [] [] None None (Some e)))
  \/ (makedirs w (abspath w (Args.dest args)) = None
      /\ ((exists st,
             fetch_all_repos (lister w) (Args.token args)
               (Args.include_archived args) (answers w) st0 = (OutOfFuel, st)
             /\ main args w = OutOfFuel)
          \/ (exists e st,
                fetch_all_repos (lister w) (Args.token args)
                  (Args.include_archived args) (answers w) st0 = (Exn e, st)
                /\ main args w
                   = Val (mkRun 2 []
                            ["Error fetching repositories list: " +:+ exn_str e]
                            (trace st) [] None None None))
          \/ (exists st,
                fetch_all_repos (lister w) (Args.token args)
                  (Args.include_archived args) (answers w) st0 = (Val [], st)
                /\ main args w
                   = Val (mkRun 0
                            ["No repositories found. (Maybe the org is empty or your token lacks access?)"]
                            [] (trace st) [] None None None))
          \/ (exists entries st ty,
                fetch_all_repos (lister w) (Args.token args)
                  (Args.include_archived args) (answers w) st0 = (Val entries, st)
                /\ In (EOther ty) entries
                /\ main args w
                   = Val (mkRun 1 [] [] (trace st) [] None None (Some (no_get ty))))
          \/ (exists r repos st run rep,
                fetch_all_repos (lister w) (Args.token args)
                  (Args.include_archived args) (answers w) st0
                = (Val (EDict <$> (r :: repos)), st)
                /\ main args w = Val run /\ report run = Some rep
                /\ length (worker_traces run) = length (r :: repos)
                /\ uncaught run
                   = write_log w (log_path_of args w) (log_text (results rep))
                /\ (uncaught run = None -> exit_code run = 0)
                /\ (uncaught run <> None -> exit_code run = 1)))).
Proof.
  destruct (makedirs w (abspath w (Args.dest args))) as [e|] eqn:Hmk.
  - left. exists e. split; [reflexivity|]. unfold main. now rewrite Hmk.
  - right. split; [reflexivity|].
    destruct (fetch_all_repos (lister w) (Args.token args)
                (Args.include_archived args) (answers w) st0)
      as [[[|x entries]|e|] st] eqn:Hfetch.
    + right; right; left. exists st. split; [reflexivity|].
      unfold main. now rewrite Hmk, Hfetch.
    + pose proof (select_all_returns (x :: entries)) as Hsel.
      destruct (select_all (x :: entries)) as [selected|e|] eqn:Hs.
      * destruct Hsel as (repos & Hent & _).
        destruct repos as [|r repos]; [discriminate Hent|].
        rewrite Hent in Hfetch.
        destruct (main_finishes args w r repos st Hmk Hfetch)
          as (run & rep & Hmain & Hrep & _ & Htr & _ & _ & _ & _ & Hunc
              & Hdone & Hcrash).
        right; right; right; right. exists r, repos, st, run, rep.
        split; [now rewrite Hent|]. split; [exact Hmain|]. split; [exact Hrep|].
        split; [exact Htr|]. split; [exact Hunc|].
        split; [intros H; apply (Hdone H)|intros H; apply (Hcrash H)].
      * destruct Hsel as (ty & Hin & ->).
        right; right; right; left. exists (x :: entries), st, ty.
        split; [reflexivity|]. split; [exact Hin|].
        unfold main. rewrite Hmk, Hfetch, Hs. reflexivity.
      * contradiction.
    + right; left. exists e, st. split; [reflexivity|].
      unfold main. now rewrite Hmk, Hfetch.
    + left. exists st. split; [reflexivity|].
      unfold main. now rewrite Hmk, Hfetch.
Qed.

(** [X16]: the exit status of a run does not depend on how the clones
    went.  It is 2 exactly when the directory could be made and the
    listing raised, and then no worker ran and no report was made; it is
    1 exactly when an exception left [main]; it is 0 otherwise, also
    when there is a report and every repository in it failed. *)
Theorem exit_status_ignores_clone_failures args w run :
  main args w = Val run ->
  (exit_code run = 0 \/ exit_code run = 1 \/ exit_code run = 2)
  /\ (exit_code run = 2
      <-> makedirs w (abspath w (Args.dest args)) = None
          /\ exists e st,
               fetch_all_repos (lister w) (Args.token args)
                 (Args.include_archived args) (answers w) st0 = (Exn e, st))
  /\ (exit_code run = 1 <-> uncaught run <> None)
  /\ (exit_code run = 2 -> worker_traces run = [] /\ report run = None)
  /\ (forall rep,
        report run = Some rep ->
        write_log w (log_path_of args w) (log_text (results rep)) = None ->
        exit_code run = 0).
Proof.
  intros Hmain.
  destruct (main_cases args w)
    as [(e & Hmk & Hrun)
       |(Hmk & [(st & Hfetch & Hrun)
               |[(e & st & Hfetch & Hrun)
                |[(st & Hfetch & Hrun)
                 |[(entries & st & ty & Hfetch & Hin & Hrun)
                  |(r & repos & st & run' & rep & Hfetch & Hrun & Hrep & _
                    & Hunc & Hdone & Hcrash)]]]])];
    rewrite Hmain in Hrun; try discriminate Hrun; injection Hrun as ->.
  - cbn. split; [auto|]. split; [|split; [|split]]; try discriminate.
    + split; [discriminate|]. intros [H _]. congruence.
    + split; [discriminate|reflexivity].
  - cbn. split; [auto|]. split; [|split; [|split]]; try discriminate.
    + split; [eauto|reflexivity].
    + split; [discriminate|]. intros H. now contradiction H.
    + intros _. split; reflexivity.
  - cbn. split; [auto|]. split; [|split; [|split]]; try discriminate.
    + split; [discriminate|]. intros (_ & e & s & H). congruence.
    + split; [discriminate|]. intros H. now contradiction H.
  - cbn. split; [auto|]. split; [|split; [|split]]; try discriminate.
    + split; [discriminate|]. intros (_ & e & s & H). congruence.
    + split; [discriminate|reflexivity].
  - destruct (uncaught run') as [x|] eqn:Hx.
    + assert (Hone : exit_code run' = 1) by (apply Hcrash; discriminate).
      rewrite Hone. split; [auto|]. split; [|split; [|split]]; try discriminate.
      * split; [discriminate|]. intros (_ & e & s & H). congruence.
      * split; [discriminate|reflexivity].
      * intros rep' Hrep'. rewrite Hrep in Hrep'. injection Hrep' as <-.
        rewrite <- Hunc. discriminate.
    + assert (Hzero : exit_code run' = 0) by (apply Hdone; reflexivity).
      rewrite Hzero. split; [auto|]. split; [|split; [|split]]; try discriminate.
      * split; [discriminate|]. intros (_ & e & s & H). congruence.
      * split; [discriminate|]. intros H. now contradiction H.
      * reflexivity.
Qed.

Lemma exit_status_ignores_clone_failures_witness :
  exists run rep,
    main (demo_args 4)
      (small_world [ok_page [demo_repo "apt" false]; ok_page []]
         (always_exit 128) [0%nat])
    = Val run
    /\ report run = Some rep /\ ok rep = 0 /\ failed rep = ["failed: apt"]
    /\ exit_code run = 0.
Proof.
  destruct (main (demo_args 4)
              (small_world [ok_page [demo_repo "apt" false]; ok_page []]
                 (always_exit 128) [0%nat]))
    as [run| |] eqn:Hmain; try (vm_compute in Hmain; discriminate Hmain).
  destruct (exit_status_ignores_clone_failures _ _ run Hmain)
    as (_ & _ & _ & _ & Hzero).
  vm_compute in Hmain. injection Hmain as <-.
  eexists _, _. split; [reflexivity|]. split; [reflexivity|].
  split; [reflexivity|]. split; [reflexivity|].
  exact (Hzero _ eq_refl eq_refl).
Defined.



Lemma success_or_failure (outcomes : list CloneOutcome) :
  (length (List.filter is_success outcomes)
   + length (List.filter is_failure outcomes))%nat = length outcomes.
Proof.
  induction outcomes as [|o l IH]; [reflexivity|].
  cbn [List.filter length]. unfold is_failure at 1.
  destruct (is_success o); cbn [negb length]; lia.
Qed.

(** [X18]: in the summary every repository is counted once, as a success
    or as a failure: the success count and the length of the failure list
    add up to the number of repositories listed. *)
Theorem summary_accounts_for_every_repository args w repos st :
  makedirs w (abspath w (Args.dest args)) = None ->
  fetch_all_repos (lister w) (Args.token args) (Args.include_archived args)
    (answers w) st0 = (Val (EDict <$> repos), st) ->
  repos <> [] ->
  Permutation (completion w) (seq 0 (length repos)) ->
  exists run rep,
    main args w = Val run /\ report run = Some rep
    /\ ok rep + Z.of_nat (length (failed rep)) = Z.of_nat (length repos)
    /\ 0 <= ok rep <= Z.of_nat (length repos).
Proof.
  intros Hmk Hfetch Hne Hperm. destruct repos as [|r repos]; [congruence|].
  destruct (main_finishes args w r repos st Hmk Hfetch)
    as (run & rep & Hmain & Hrep & _ & _ & _ & Hres & Hok & Hfailed & _).
  exists run, rep. split; [exact Hmain|]. split; [exact Hrep|].
  destruct (futures_entries args w (r :: repos) (completion w))
    as (outcomes & Hout).
  assert (Hlen : length outcomes = length (r :: repos)).
  { pose proof (Permutation_length (results_permutation args w (r :: repos) Hperm))
      as Hl.
    rewrite Hout, !length_fmap in Hl. rewrite Hl.
    unfold futures_of. now rewrite length_imap, length_fmap. }
  rewrite Hok, Hfailed, Hres, Hout, count_ok_render, failures_render, length_fmap.
  pose proof (success_or_failure outcomes) as Hsum. lia.
Qed.

Lemma summary_accounts_for_every_repository_witness :
  exists run rep,
    main (demo_args 4) demo_world = Val run /\ report run = Some rep
    /\ ok rep + Z.of_nat (length (failed rep)) = 3
    /\ 0 <= ok rep <= 3.
Proof.
  apply (summary_accounts_for_every_repository (demo_args 4) demo_world
           [demo_repo "apt" false; demo_repo "cnc" false; demo_repo "EASTL" false]
           (fetch_all_repos (lister demo_world) None false
              (answers demo_world) st0).2).
  - reflexivity.
  - reflexivity.
  - discriminate.
  - apply (Permutation_cons_append [0%nat; 1%nat] 2%nat).
Defined.
